(** * Beside the Point: the Monte Carlo simulator and the exact evaluator

    A shallow embedding of [solution_nov24.ipynb].

    The notebook computes on IEEE binary64 numbers through NumPy.  The
    embedding keeps the control flow, the array plumbing and the error
    behaviour of the code and replaces binary64 arithmetic by exact
    arithmetic: rationals ([Q]) in the simulator, whose inputs are the
    (dyadic, hence rational) draws of the random source, and reals ([R])
    in the circle geometry, which needs [sqrt], [arccos], [sin] and [pi].
    Rounding, overflow and NaN inputs are outside the model; what NumPy
    answers with a non-finite value (division by zero, [arccos] outside
    [-1,1]) is kept as an explicit outcome.  The one place whose purpose
    is rounding, the clamp before [arccos], is followed a second time on
    binary64 numbers in module [Binary64]. *)

From Stdlib Require Import Reals Lra Psatz.
From Stdlib Require Import QArith Qabs ZArith Lia List Bool.
From Stdlib Require Import Qreals Permutation.
From Stdlib Require Floats.
Import ListNotations.

(** ** The exact path: circle-pair geometry (notebook cell 9) *)

Module Geometry.
Local Open Scope R_scope.

(** A NumPy float computation either yields a finite real or a
    non-finite value ([nan]/[inf], with a RuntimeWarning); the latter is
    [None] and propagates through every later operation. *)
Definition npfloat := option R.

Definition bind {A B} (m : option A) (k : A -> option B) : option B :=
  match m with
  | Some a => k a
  | None => None
  end.

Notation "x <- m ;; k" := (bind m (fun x => k))
  (at level 61, m at next level, right associativity).

(** [a / b] on float64 scalars: a zero divisor gives [inf] or [nan]. *)
Definition np_div (a b : R) : npfloat :=
  if Req_dec_T b 0 then None else Some (a / b).

(** [np.clip(a, lo, hi)] is [minimum(maximum(a, lo), hi)]. *)
Definition np_clip (a lo hi : R) : R := Rmin (Rmax a lo) hi.

(** [np.arccos(v)]: [nan] outside of [-1, 1]. *)
Definition np_arccos (v : R) : npfloat :=
  if Rle_dec (-1) v then
    if Rle_dec v 1 then Some (acos v) else None
  else None.

(** [rr == 0]. *)
Definition is_zero (r : R) : bool :=
  if Req_dec_T r 0 then true else false.

Definition r1 (x y : R) : R := sqrt (x ^ 2 + y ^ 2).

Definition r2 (x y : R) : R := sqrt ((1 - x) ^ 2 + y ^ 2).

Definition c_ad (x y : R) : npfloat :=
  let rr1 := r1 x y in
  let rr2 := r2 x y in
  if is_zero rr1 then Some 0
  else
    arg <- np_div (rr1 ^ 2 + 1 - rr2 ^ 2) (2 * rr1) ;;
    let arg := np_clip arg (-1) 1 in
    th <- np_arccos arg ;;
    Some (2 * th).

Definition c_bd (x y : R) : npfloat :=
  let rr1 := r1 x y in
  let rr2 := r2 x y in
  if is_zero rr2 then Some 0
  else
    arg <- np_div (rr2 ^ 2 + 1 - rr1 ^ 2) (2 * rr2) ;;
    let arg := np_clip arg (-1) 1 in
    th <- np_arccos arg ;;
    Some (2 * th).

Definition intersection_area (x y : R) : npfloat :=
  let rr1 := r1 x y in
  let rr2 := r2 x y in
  if is_zero rr1 || is_zero rr2 then Some 0
  else
    cad <- c_ad x y ;;
    cbd <- c_bd x y ;;
    Some (0.5 * (rr1 ^ 2 * (cad - sin cad) + rr2 ^ 2 * (cbd - sin cbd))).

Definition A (x y : R) : npfloat :=
  ia <- intersection_area x y ;;
  Some ((PI * r1 x y ^ 2) / 4 + (PI * r2 x y ^ 2) / 4 - ia).

(** The canonical blue region of the spec. *)
Definition canonical (x y : R) : Prop :=
  0 <= y <= 0.5 /\ y <= x /\ y <= 1 - x.

End Geometry.

(** ** The simulator path: [vectorized_simulation] (notebook cell 5) *)

Module Simulator.
Local Open Scope Q_scope.

Definition point : Type := Q * Q.

(** A float64 value produced by a division: finite, infinite or [nan]. *)
Inductive npfloat : Type :=
| Fin (q : Q)
| PInf
| NInf
| NaN.

(** The exceptions NumPy can raise in this function. *)
Inductive exn : Type :=
| IndexError
| ValueError.

Inductive outcome (A : Type) : Type :=
| Ret (a : A)
| Raise (e : exn).
Arguments Ret {A} a.
Arguments Raise {A} e.

Definition bind {A B} (m : outcome A) (k : A -> outcome B) : outcome B :=
  match m with
  | Ret a => k a
  | Raise e => Raise e
  end.

Notation "x <- m ;; k" := (bind m (fun x => k))
  (at level 61, m at next level, right associativity).

(** *** Arrays *)

(** Only two shapes occur: [(n,)] and [(n, 2)]. *)
Inductive ndarray : Type :=
| Arr1 (xs : list Q)
| Arr2 (rows : list point).

Inductive axis1 : Type := col0 | col1.

Definition proj (j : axis1) (p : point) : Q :=
  match j with
  | col0 => fst p
  | col1 => snd p
  end.

(** [np.array(l)] of a list of two-element lists; the empty list gives
    the one-dimensional empty array of shape [(0,)]. *)
Definition np_array (l : list point) : ndarray :=
  match l with
  | [] => Arr1 []
  | _ :: _ => Arr2 l
  end.

(** [a[:, j]]: two indices into a one-dimensional array raise. *)
Definition column (a : ndarray) (j : axis1) : outcome (list Q) :=
  match a with
  | Arr1 _ => Raise IndexError
  | Arr2 rows => Ret (map (proj j) rows)
  end.

(** Boolean-mask selection. *)
Fixpoint select {A : Type} (mask : list bool) (l : list A) : list A :=
  match mask, l with
  | b :: mask', x :: l' => if b then x :: select mask' l' else select mask' l'
  | _, _ => []
  end.

(** [a[mask]] *)
Definition rows_where (a : ndarray) (mask : list bool)
  : outcome (list point) :=
  match a with
  | Arr1 _ => Raise IndexError
  | Arr2 rows =>
      if (length mask =? length rows)%nat then Ret (select mask rows)
      else Raise IndexError
  end.

(** [a[mask, j]] *)
Definition masked_column (a : ndarray) (mask : list bool) (j : axis1)
  : outcome (list Q) :=
  match a with
  | Arr1 _ => Raise IndexError
  | Arr2 rows =>
      if (length mask =? length rows)%nat
      then Ret (select mask (map (proj j) rows))
      else Raise IndexError
  end.

(** Elementwise binary operation.  At every use below the two operands
    have the same length, so no broadcasting takes place. *)
Fixpoint map2 {A B C : Type} (f : A -> B -> C) (l : list A) (l' : list B)
  : list C :=
  match l, l' with
  | a :: t, b :: t' => f a b :: map2 f t t'
  | _, _ => []
  end.

(** [np.sum] of a boolean array. *)
Definition np_sum (l : list bool) : nat := length (filter (fun b => b) l).

(** Elementwise float division: a zero divisor yields [inf] or [nan]
    (and a warning), never an exception. *)
Definition np_divide (a b : Q) : npfloat :=
  if Qeq_bool b 0 then
    if Qeq_bool a 0 then NaN
    else if Qle_bool 0 a then PInf else NInf
  else Fin (a / b).

(** [int / int] on NumPy integers is float division. *)
Definition true_divide (a b : nat) : npfloat :=
  match b with
  | O => match a with O => NaN | S _ => PInf end
  | S _ => Fin (Z.of_nat a # Pos.of_nat b)
  end.

(** [v >= 0] and [v <= 1] on float64; comparisons with [nan] are false. *)
Definition ge_0 (v : npfloat) : bool :=
  match v with
  | Fin q => Qle_bool 0 q
  | PInf => true
  | NInf | NaN => false
  end.

Definition le_1 (v : npfloat) : bool :=
  match v with
  | Fin q => Qle_bool q 1
  | NInf => true
  | PInf | NaN => false
  end.

(** [np.isclose(a, b, rtol, atol)] on finite values:
    [|a - b| <= atol + rtol * |b|]; [rtol] defaults to [1e-05]. *)
Definition rtol_default : Q := 1e-5.

Definition isclose (rtol atol : Q) (a b : Q) : bool :=
  Qle_bool (Qabs (a - b)) (atol + rtol * Qabs b).

Definition np_isclose (a b : list Q) (rtol atol : Q) : list bool :=
  map2 (isclose rtol atol) a b.

(** [l[:n]] on a Python list. *)
Definition py_slice_to {A : Type} (l : list A) (n : Z) : list A :=
  if (n <? 0)%Z then firstn (length l - Z.to_nat (- n)) l
  else firstn (Z.to_nat n) l.

(** *** The random source

    The draws of [np.random.rand] are an infinite tape of numbers read
    left to right; the generator state is the read position.
    [np.random.rand(n, 2)] fills an [(n, 2)] array in row-major order. *)
Definition source : Type := nat -> Q.

Definition draw_rows (src : source) (n pos : nat) : list point :=
  map (fun i => (src (pos + 2 * i)%nat, src (pos + 2 * i + 1)%nat))
      (seq 0 n).

Definition np_random_rand (src : source) (n : Z) (pos : nat)
  : outcome (ndarray * nat) :=
  if (n <? 0)%Z then Raise ValueError
  else Ret (Arr2 (draw_rows src (Z.to_nat n) pos),
            (pos + 2 * Z.to_nat n)%nat).

(** *** The function *)

(** One round of the rejection loop. *)
Definition loop_body (src : source) (num_samples : Z)
           (blue : list point) (pos : nat) : outcome (list point * nat) :=
  r <- np_random_rand src num_samples pos ;;
  let (pts, pos') := r in
  y1 <- column pts col1 ;;
  y2 <- column pts col1 ;;
  x2 <- column pts col0 ;;
  y3 <- column pts col1 ;;
  x3 <- column pts col0 ;;
  let valid :=
    map2 andb
      (map2 andb (map (fun y => Qle_bool y 0.5) y1) (map2 Qle_bool y2 x2))
      (map2 Qle_bool y3 (map (fun x => 1 - x) x3)) in
  sel <- rows_where pts valid ;;
  Ret (blue ++ sel, pos').

(** [while len(blue) < num_samples: ...]; [None] when the fuel runs out
    with the loop still going. *)
Fixpoint blue_loop (src : source) (num_samples : Z) (fuel : nat)
         (blue : list point) (pos : nat) {struct fuel}
  : option (outcome (list point * nat)) :=
  if (Z.of_nat (length blue) <? num_samples)%Z then
    match fuel with
    | O => None
    | S fuel' =>
        match loop_body src num_samples blue pos with
        | Ret (blue', pos') => blue_loop src num_samples fuel' blue' pos'
        | Raise e => Some (Raise e)
        end
    end
  else Some (Ret (blue, pos)).

Definition mask (red blue : ndarray) : outcome (list bool) :=
  x2 <- column red col0 ;;
  x1 <- column blue col0 ;;
  Ret (map negb (np_isclose x2 x1 rtol_default 1e-8)).

Definition a_vals (red blue : ndarray) (mask : list bool)
  : outcome (list npfloat) :=
  rx <- masked_column red mask col0 ;;
  bx <- masked_column blue mask col0 ;;
  ry <- masked_column red mask col1 ;;
  by_ <- masked_column blue mask col1 ;;
  let num :=
    map2 Qminus
      (map2 Qplus
         (map2 Qminus (map (fun v => v ^ 2) rx) (map (fun v => v ^ 2) bx))
         (map (fun v => v ^ 2) ry))
      (map (fun v => v ^ 2) by_) in
  rx' <- masked_column red mask col0 ;;
  bx' <- masked_column blue mask col0 ;;
  let den := map (fun v => 2 * v) (map2 Qminus rx' bx') in
  Ret (map2 np_divide num den).

Definition successes (a_vals : list npfloat) : nat :=
  np_sum (map2 andb (map ge_0 a_vals) (map le_1 a_vals)).

(** Lines 113-121: the success fraction of the paired arrays. *)
Definition success_fraction (red blue : ndarray) : outcome npfloat :=
  m <- mask red blue ;;
  av <- a_vals red blue m ;;
  let probability := true_divide (successes av) (np_sum m) in
  Ret probability.

Definition vectorized_simulation (src : source) (fuel : nat)
           (num_samples : Z) : option (outcome npfloat) :=
  match blue_loop src num_samples fuel [] 0 with
  | None => None
  | Some (Raise e) => Some (Raise e)
  | Some (Ret (blue, pos)) =>
      Some (let blue := np_array (py_slice_to blue num_samples) in
            r <- np_random_rand src num_samples pos ;;
            let red := fst r in
            success_fraction red blue)
  end.

(** *** The per-pair reading of the spec

    These follow the words of the spec, pair by pair; the theorems below
    relate them to the array program above. *)

Definition in_triangle (p : point) : Prop :=
  0 <= snd p /\ snd p <= 0.5 /\ snd p <= fst p /\ snd p <= 1 - fst p.

Definition in_unit_square (p : point) : Prop :=
  0 <= fst p <= 1 /\ 0 <= snd p <= 1.

(** The triangle membership test as the loop evaluates it. *)
Definition valid (p : point) : bool :=
  Qle_bool (snd p) 0.5 && Qle_bool (snd p) (fst p)
  && Qle_bool (snd p) (1 - fst p).

(** The points accepted in [k] consecutive batches of [n] draws. *)
Fixpoint accepted (src : source) (n k pos : nat) : list point :=
  match k with
  | O => []
  | S k' =>
      filter valid (draw_rows src n pos) ++ accepted src n k' (pos + 2 * n)
  end.

(** A pair is (blue point, red point). *)
Definition candidate (pr : point * point) : Q :=
  let '((x1, y1), (x2, y2)) := pr in
  (x2 ^ 2 - x1 ^ 2 + y2 ^ 2 - y1 ^ 2) / (2 * (x2 - x1)).

(** The same quotient through NumPy's division, which answers a zero
    denominator with a non-finite value. *)
Definition quotient (pr : point * point) : npfloat :=
  let '((x1, y1), (x2, y2)) := pr in
  np_divide (x2 ^ 2 - x1 ^ 2 + y2 ^ 2 - y1 ^ 2) (2 * (x2 - x1)).

Definition excluded (pr : point * point) : bool :=
  isclose rtol_default 1e-8 (fst (snd pr)) (fst (fst pr)).

Definition retained (pr : point * point) : bool := negb (excluded pr).

Definition success (pr : point * point) : bool :=
  Qle_bool 0 (candidate pr) && Qle_bool (candidate pr) 1.

(** A random source that replays a finite list of draws and then
    returns zeros; used to run the function on concrete inputs. *)
Definition tape (draws : list Q) : source := fun i => nth i draws 0.

(** Two rounds of two candidate blue points, one accepted in each
    round, then two red points: the first red point is equidistant from
    the left corner with its blue partner ([a = 0]), the second shares
    its partner's abscissa. *)
Definition sample_tape : source :=
  tape [0.5; 0.25; 0.9; 0.9;
        0.7; 0.2; 0.1; 0.2;
        0.25; 0.5; 0.7; 0.9].

(** One blue point and a red point whose abscissa differs from it by
    [1e-6]; and the same with equal abscissas. *)
Definition near_tape : source := tape [0.5; 0.25; 0.500001; 0.5].

Definition equal_tape : source := tape [0.5; 0.25; 0.5; 0.5].

(** A source outside of what a uniform generator delivers: every point
    it yields is [(0.9, 0.9)], above the triangle. *)
Definition rejecting_source : source := fun _ => 0.9.

(** One round that accepts two blue points, then two red points, both
    retained: the first pair is a success ([a = 0]), the second is not
    ([a = -0.4]). *)
Definition half_tape : source :=
  tape [0.5; 0.25; 0.7; 0.2;
        0.25; 0.5; 0.6; 0.5].

(** [sample_tape] followed by two more draws. *)
Definition longer_tape : source :=
  tape [0.5; 0.25; 0.9; 0.9;
        0.7; 0.2; 0.1; 0.2;
        0.25; 0.5; 0.7; 0.9;
        0.3; 0.1].

(** Squared distances of a point to the bottom-left corner [(0,0)] and
    to the bottom-right corner [(1,0)] of the square. *)
Definition sqdist_left (p : point) : Q := fst p ^ 2 + snd p ^ 2.

Definition sqdist_right (p : point) : Q := (1 - fst p) ^ 2 + snd p ^ 2.

End Simulator.

(** ** The integration driver (notebook cell 10) *)

Module Integration.
Local Open Scope R_scope.

(** The arguments of a call [dblquad(func, a, b, gfun, hfun)].  SciPy
    integrates [func(y, x)] for [x] from [a] to [b] and, for each [x],
    for [y] from [gfun(x)] to [hfun(x)].  The quadrature itself is not
    modelled. *)
Record dblquad_call : Type := {
  func : R -> R -> Geometry.npfloat;
  a : R;
  b : R;
  gfun : R -> R;
  hfun : R -> R
}.

(** The call that gives [I1]. *)
Definition I1_call : dblquad_call := {|
  func := fun yy xx => Geometry.A xx yy;
  a := 0;
  b := 0.5;
  gfun := fun xx => 0;
  hfun := fun xx => xx
|}.

(** The call that gives [I2]. *)
Definition I2_call : dblquad_call := {|
  func := fun yy xx => Geometry.A xx yy;
  a := 0.5;
  b := 1;
  gfun := fun xx => 0;
  hfun := fun xx => 1 - xx
|}.

(** The points [(x, y)] a call integrates over. *)
Definition domain (c : dblquad_call) (x y : R) : Prop :=
  a c <= x <= b c /\ gfun c x <= y <= hfun c x.

End Integration.

(** ** The clamp in binary64 (cell 9, lines 209-214 and 218-223)

    Whether the clamp matters is a question about rounding, which the
    exact reals of [Geometry] cannot see.  This module follows the same
    lines of [c_ad] and [c_bd] up to the call of [np.arccos] on binary64
    numbers (Rocq's primitive floats).  [x] and [y] are Python floats,
    as [dblquad] passes them; [r1] and [r2] return float64 scalars. *)

Module Binary64.
Import Floats.PrimFloat.
Local Open Scope float_scope.
#[local] Set Warnings "-inexact-float".

Inductive pyresult (A : Type) : Type :=
| Value (a : A)
| OverflowError.
Arguments Value {A} a.
Arguments OverflowError {A}.

(** [v ** 2] on a Python float: the square, and OverflowError when the
    square of a finite number is infinite. *)
Definition py_square (v : float) : pyresult float :=
  if is_finite v && is_infinity (v * v) then OverflowError
  else Value (v * v).


Definition r1 (x y : float) : pyresult float :=
  match py_square x with
  | OverflowError => OverflowError
  | Value xx =>
      match py_square y with
      | OverflowError => OverflowError
      | Value yy => Value (sqrt (xx + yy))
      end
  end.

Definition r2 (x y : float) : pyresult float :=
  match py_square (1 - x) with
  | OverflowError => OverflowError
  | Value xx =>
      match py_square y with
      | OverflowError => OverflowError
      | Value yy => Value (sqrt (xx + yy))
      end
  end.

(** [np.clip]: maximum with the lower bound, then minimum with the
    upper bound, each returning its first operand when that is NaN. *)
Definition npy_max (a b : float) : float :=
  if is_nan a then a else if b <? a then a else b.

Definition npy_min (a b : float) : float :=
  if is_nan a then a else if a <? b then a else b.

Definition np_clip (a lo hi : float) : float := npy_min (npy_max a lo) hi.








End Binary64.

(** ** Proofs about the geometry *)

Section GeometryFacts.
Import Geometry.
Local Open Scope R_scope.

Lemma is_zero_true (r : R) : is_zero r = true <-> r = 0.
Proof.
  unfold is_zero; destruct (Req_dec_T r 0); split; congruence.
Qed.

Lemma is_zero_false (r : R) : is_zero r = false <-> r <> 0.
Proof.
  unfold is_zero; destruct (Req_dec_T r 0); split; congruence.
Qed.

Lemma r1_nonneg (x y : R) : 0 <= r1 x y.
Proof. apply sqrt_pos. Qed.

Lemma r2_nonneg (x y : R) : 0 <= r2 x y.
Proof. apply sqrt_pos. Qed.

Lemma sum_squares_nonneg (a b : R) : 0 <= a ^ 2 + b ^ 2.
Proof. apply Rplus_le_le_0_compat; apply pow2_ge_0. Qed.

Lemma r1_sq (x y : R) : r1 x y ^ 2 = x ^ 2 + y ^ 2.
Proof. unfold r1; apply pow2_sqrt, sum_squares_nonneg. Qed.

Lemma r2_sq (x y : R) : r2 x y ^ 2 = (1 - x) ^ 2 + y ^ 2.
Proof. unfold r2; apply pow2_sqrt, sum_squares_nonneg. Qed.

Lemma r1_zero_iff (x y : R) : r1 x y = 0 <-> x ^ 2 + y ^ 2 = 0.
Proof.
  split; intros H.
  - rewrite <- r1_sq, H; ring.
  - unfold r1; rewrite H; apply sqrt_0.
Qed.

Lemma r2_zero_iff (x y : R) : r2 x y = 0 <-> (1 - x) ^ 2 + y ^ 2 = 0.
Proof.
  split; intros H.
  - rewrite <- r2_sq, H; ring.
  - unfold r2; rewrite H; apply sqrt_0.
Qed.

(** Reflection across the vertical midline exchanges the two radii. *)
Lemma r1_reflect (x y : R) : r1 (1 - x) y = r2 x y.
Proof. reflexivity. Qed.

Lemma r2_reflect (x y : R) : r2 (1 - x) y = r1 x y.
Proof. unfold r1, r2; f_equal; ring. Qed.

Lemma np_clip_range (a : R) : -1 <= np_clip a (-1) 1 <= 1.
Proof.
  unfold np_clip; split.
  - apply Rmin_glb; [apply Rmax_r | lra].
  - apply Rmin_r.
Qed.

Lemma np_arccos_in_range (v : R) :
  -1 <= v <= 1 -> np_arccos v = Some (acos v).
Proof.
  intros [Hl Hu]; unfold np_arccos.
  destruct (Rle_dec (-1) v); [|contradiction].
  destruct (Rle_dec v 1); [reflexivity | contradiction].
Qed.

Lemma np_div_nonzero (a b : R) : b <> 0 -> np_div a b = Some (a / b).
Proof.
  intros Hb; unfold np_div; destruct (Req_dec_T b 0); congruence.
Qed.

(** Outside of the zero-radius guard [c_ad] divides by a nonzero number
    and calls [np.arccos] on a clipped value. *)
Lemma c_ad_value (x y : R) :
  r1 x y <> 0 ->
  c_ad x y =
  Some (2 * acos (np_clip ((r1 x y ^ 2 + 1 - r2 x y ^ 2) / (2 * r1 x y)) (-1) 1)).
Proof.
  intros Hr; unfold c_ad.
  apply is_zero_false in Hr as Hz; rewrite Hz.
  rewrite np_div_nonzero by lra; cbn [bind].
  rewrite np_arccos_in_range by apply np_clip_range.
  reflexivity.
Qed.

Lemma c_bd_value (x y : R) :
  r2 x y <> 0 ->
  c_bd x y =
  Some (2 * acos (np_clip ((r2 x y ^ 2 + 1 - r1 x y ^ 2) / (2 * r2 x y)) (-1) 1)).
Proof.
  intros Hr; unfold c_bd.
  apply is_zero_false in Hr as Hz; rewrite Hz.
  rewrite np_div_nonzero by lra; cbn [bind].
  rewrite np_arccos_in_range by apply np_clip_range.
  reflexivity.
Qed.

Lemma c_ad_zero_radius (x y : R) : r1 x y = 0 -> c_ad x y = Some 0.
Proof.
  intros Hr; unfold c_ad.
  apply is_zero_true in Hr; rewrite Hr; reflexivity.
Qed.

Lemma c_bd_zero_radius (x y : R) : r2 x y = 0 -> c_bd x y = Some 0.
Proof.
  intros Hr; unfold c_bd.
  apply is_zero_true in Hr; rewrite Hr; reflexivity.
Qed.

Lemma c_ad_angle (x y : R) :
  exists th, c_ad x y = Some th /\ 0 <= th <= 2 * PI.
Proof.
  destruct (Req_dec_T (r1 x y) 0) as [Hr | Hr].
  - exists 0; split; [now apply c_ad_zero_radius |].
    pose proof PI_RGT_0; lra.
  - eexists; split; [now apply c_ad_value |].
    match goal with |- context [acos ?v] => pose proof (acos_bound v) end.
    lra.
Qed.

Lemma c_bd_angle (x y : R) :
  exists th, c_bd x y = Some th /\ 0 <= th <= 2 * PI.
Proof.
  destruct (Req_dec_T (r2 x y) 0) as [Hr | Hr].
  - exists 0; split; [now apply c_bd_zero_radius |].
    pose proof PI_RGT_0; lra.
  - eexists; split; [now apply c_bd_value |].
    match goal with |- context [acos ?v] => pose proof (acos_bound v) end.
    lra.
Qed.

Lemma sin_le_self (th : R) : 0 <= th -> sin th <= th.
Proof.
  intros [Hpos | <-].
  - left; now apply sin_lt_x.
  - rewrite sin_0; lra.
Qed.

Lemma intersection_area_zero_radius (x y : R) :
  r1 x y = 0 \/ r2 x y = 0 -> intersection_area x y = Some 0.
Proof.
  intros H; unfold intersection_area.
  replace (is_zero (r1 x y) || is_zero (r2 x y))%bool with true; [reflexivity|].
  symmetry; apply orb_true_iff.
  destruct H as [H | H]; [left | right]; now apply is_zero_true.
Qed.

Lemma intersection_area_value (x y : R) :
  r1 x y <> 0 -> r2 x y <> 0 ->
  forall cad cbd, c_ad x y = Some cad -> c_bd x y = Some cbd ->
  intersection_area x y =
  Some (0.5 * (r1 x y ^ 2 * (cad - sin cad) + r2 x y ^ 2 * (cbd - sin cbd))).
Proof.
  intros H1 H2 cad cbd Ha Hb; unfold intersection_area.
  apply is_zero_false in H1, H2; rewrite H1, H2; cbn [orb].
  rewrite Ha, Hb; reflexivity.
Qed.

Lemma intersection_area_nonneg (x y : R) :
  exists v, intersection_area x y = Some v /\ 0 <= v.
Proof.
  destruct (Req_dec_T (r1 x y) 0) as [H1 | H1].
  { exists 0; split; [apply intersection_area_zero_radius; now left | lra]. }
  destruct (Req_dec_T (r2 x y) 0) as [H2 | H2].
  { exists 0; split; [apply intersection_area_zero_radius; now right | lra]. }
  destruct (c_ad_angle x y) as (cad & Ha & Hca).
  destruct (c_bd_angle x y) as (cbd & Hb & Hcb).
  eexists; split; [apply (intersection_area_value x y H1 H2 cad cbd Ha Hb) |].
  assert (0 <= cad - sin cad) by (pose proof (sin_le_self cad (proj1 Hca)); lra).
  assert (0 <= cbd - sin cbd) by (pose proof (sin_le_self cbd (proj1 Hcb)); lra).
  pose proof (pow2_ge_0 (r1 x y)); pose proof (pow2_ge_0 (r2 x y)).
  nra.
Qed.

(** *** Closed form of the angles

    With the centres one unit apart the law-of-cosines quotient collapses:
    [(r1^2 + 1 - r2^2) / (2 r1) = x / r1], the cosine of the polar angle
    of the blue point seen from the left corner; symmetrically for the
    right corner. *)

Lemma r1_pos (x y : R) : r1 x y <> 0 -> 0 < r1 x y.
Proof. pose proof (r1_nonneg x y); lra. Qed.

Lemma r2_pos (x y : R) : r2 x y <> 0 -> 0 < r2 x y.
Proof. pose proof (r2_nonneg x y); lra. Qed.

Lemma c_ad_quotient (x y : R) :
  r1 x y <> 0 ->
  (r1 x y ^ 2 + 1 - r2 x y ^ 2) / (2 * r1 x y) = x / r1 x y.
Proof.
  intros Hr; rewrite r1_sq, r2_sq; field; exact Hr.
Qed.

Lemma c_bd_quotient (x y : R) :
  r2 x y <> 0 ->
  (r2 x y ^ 2 + 1 - r1 x y ^ 2) / (2 * r2 x y) = (1 - x) / r2 x y.
Proof.
  intros Hr; rewrite r1_sq, r2_sq; field; exact Hr.
Qed.

(** A leg over the hypotenuse is a cosine. *)
Lemma leg_over_hyp (a b h : R) :
  0 < h -> h ^ 2 = a ^ 2 + b ^ 2 -> -1 <= a / h <= 1.
Proof.
  intros Hh Hsq.
  assert (Ha : - h <= a <= h) by (pose proof (pow2_ge_0 b); split; nra).
  split.
  - apply Rmult_le_reg_r with h; [exact Hh|].
    unfold Rdiv; rewrite Rmult_assoc, Rinv_l by lra; lra.
  - apply Rmult_le_reg_r with h; [exact Hh|].
    unfold Rdiv; rewrite Rmult_assoc, Rinv_l by lra; lra.
Qed.

Lemma np_clip_id (a : R) : -1 <= a <= 1 -> np_clip a (-1) 1 = a.
Proof.
  intros [Hl Hu]; unfold np_clip.
  rewrite Rmax_left by lra; now rewrite Rmin_left.
Qed.

Lemma c_ad_closed (x y : R) :
  r1 x y <> 0 -> c_ad x y = Some (2 * acos (x / r1 x y)).
Proof.
  intros Hr; rewrite c_ad_value, c_ad_quotient by exact Hr.
  rewrite np_clip_id; [reflexivity|].
  apply leg_over_hyp with y; [now apply r1_pos | apply r1_sq].
Qed.

Lemma c_bd_closed (x y : R) :
  r2 x y <> 0 -> c_bd x y = Some (2 * acos ((1 - x) / r2 x y)).
Proof.
  intros Hr; rewrite c_bd_value, c_bd_quotient by exact Hr.
  rewrite np_clip_id; [reflexivity|].
  apply leg_over_hyp with y; [now apply r2_pos | apply r2_sq].
Qed.

(** The sine of the doubled angle, scaled by the squared hypotenuse, is
    twice the product of the legs. *)
Lemma scaled_sin_double (a b h : R) :
  0 < h -> 0 <= b -> h ^ 2 = a ^ 2 + b ^ 2 ->
  h ^ 2 * sin (2 * acos (a / h)) = 2 * a * b.
Proof.
  intros Hh Hb Hsq.
  pose proof (leg_over_hyp a b h Hh Hsq) as Hrange.
  rewrite sin_2a, sin_acos, cos_acos by exact Hrange.
  replace (1 - (a / h)²) with ((b / h)²).
  2:{ unfold Rsqr.
      assert (Hb2 : b ^ 2 = h ^ 2 - a ^ 2) by lra.
      replace (b / h * (b / h)) with (b ^ 2 / h ^ 2) by (field; lra).
      rewrite Hb2; field; lra. }
  rewrite sqrt_Rsqr.
  2:{ apply Rmult_le_pos; [exact Hb | left; now apply Rinv_0_lt_compat]. }
  field; lra.
Qed.

(** The angle of a point below the diagonal is at most [PI / 4]. *)
Lemma acos_below_diagonal (a b h : R) :
  0 < h -> 0 <= b <= a -> h ^ 2 = a ^ 2 + b ^ 2 -> acos (a / h) <= PI / 4.
Proof.
  intros Hh [Hb Hba] Hsq.
  pose proof (leg_over_hyp a b h Hh Hsq) as Hrange.
  pose proof (acos_bound (a / h)) as Hbound.
  pose proof PI_RGT_0 as Hpi.
  destruct (Rle_dec (acos (a / h)) (PI / 4)) as [Hle | Hgt]; [exact Hle|].
  exfalso.
  assert (Hcos : cos (acos (a / h)) < cos (PI / 4)).
  { apply cos_decreasing_1; lra. }
  rewrite cos_acos, cos_PI4 in Hcos by exact Hrange.
  assert (Hs2 : 0 < sqrt 2) by (apply sqrt_lt_R0; lra).
  assert (Hs2sq : sqrt 2 * sqrt 2 = 2) by (apply sqrt_sqrt; lra).
  assert (Hah : a * sqrt 2 < h).
  { apply Rmult_lt_reg_r with (/ h * / sqrt 2).
    - apply Rmult_lt_0_compat; now apply Rinv_0_lt_compat.
    - replace (a * sqrt 2 * (/ h * / sqrt 2)) with (a / h) by (field; lra).
      replace (h * (/ h * / sqrt 2)) with (1 / sqrt 2) by (field; lra).
      exact Hcos. }
  assert (Ha : 0 <= a) by lra.
  assert (H2 : (a * sqrt 2) ^ 2 < h ^ 2).
  { assert (0 <= a * sqrt 2) by (apply Rmult_le_pos; lra). nra. }
  replace ((a * sqrt 2) ^ 2) with (a ^ 2 * (sqrt 2 * sqrt 2)) in H2 by ring.
  rewrite Hs2sq, Hsq in H2.
  nra.
Qed.

(** *** The valid area *)

Lemma A_unfold (x y ia : R) :
  intersection_area x y = Some ia ->
  A x y = Some ((PI * r1 x y ^ 2) / 4 + (PI * r2 x y ^ 2) / 4 - ia).
Proof. intros H; unfold A; rewrite H; reflexivity. Qed.

(** Above the bottom edge and away from the two corners the lens is two
    sectors minus the triangle over the unit base, whose area is [y]. *)
Lemma intersection_area_closed (x y : R) :
  0 <= y -> r1 x y <> 0 -> r2 x y <> 0 ->
  intersection_area x y =
  Some (r1 x y ^ 2 * acos (x / r1 x y)
        + r2 x y ^ 2 * acos ((1 - x) / r2 x y) - y).
Proof.
  intros Hy H1 H2.
  rewrite (intersection_area_value x y H1 H2 _ _
             (c_ad_closed x y H1) (c_bd_closed x y H2)).
  f_equal.
  pose proof (scaled_sin_double x y (r1 x y)
                (r1_pos x y H1) Hy (r1_sq x y)) as S1.
  pose proof (scaled_sin_double (1 - x) y (r2 x y)
                (r2_pos x y H2) Hy (r2_sq x y)) as S2.
  set (al := acos (x / r1 x y)) in *.
  set (be := acos ((1 - x) / r2 x y)) in *.
  replace 0.5 with (/ 2) by lra.
  replace (/ 2 * (r1 x y ^ 2 * (2 * al - sin (2 * al))
                  + r2 x y ^ 2 * (2 * be - sin (2 * be))))
    with (r1 x y ^ 2 * al + r2 x y ^ 2 * be
          - (r1 x y ^ 2 * sin (2 * al)) / 2
          - (r2 x y ^ 2 * sin (2 * be)) / 2) by field.
  rewrite S1, S2; field.
Qed.

Lemma radii_sq_sum_le_1 (x y : R) :
  canonical x y -> r1 x y ^ 2 + r2 x y ^ 2 <= 1.
Proof.
  intros ((Hy0 & Hy) & Hx & Hx'); rewrite r1_sq, r2_sq.
  assert (y * y <= x * (1 - x)) by (apply Rmult_le_compat; lra).
  nra.
Qed.

(** Claim C3.  For every blue point of the canonical triangle
    [0 <= y <= 0.5], [y <= x], [y <= 1 - x], the valid area
    [A(x,y) = pi r1^2/4 + pi r2^2/4 - intersection_area(x,y)] is a proper
    number and lies in [[0, pi/2]]; in particular it is not negative. *)
Theorem A_range_on_canonical (x y : R) :
  canonical x y -> exists v, A x y = Some v /\ 0 <= v <= PI / 2.
Proof.
  intros Hc.
  pose proof (radii_sq_sum_le_1 x y Hc) as Hsum.
  destruct Hc as ((Hy0 & Hy) & Hx & Hx').
  pose proof PI_RGT_0 as Hpi.
  pose proof (pow2_ge_0 (r1 x y)) as Hr1.
  pose proof (pow2_ge_0 (r2 x y)) as Hr2.
  destruct (intersection_area_nonneg x y) as (ia & Hia & Hpos).
  exists ((PI * r1 x y ^ 2) / 4 + (PI * r2 x y ^ 2) / 4 - ia).
  split; [now apply A_unfold|]. split; [|nra].
  destruct (Req_dec_T (r1 x y) 0) as [H1 | H1].
  { rewrite intersection_area_zero_radius in Hia by now left.
    injection Hia as <-; nra. }
  destruct (Req_dec_T (r2 x y) 0) as [H2 | H2].
  { rewrite intersection_area_zero_radius in Hia by now right.
    injection Hia as <-; nra. }
  rewrite intersection_area_closed in Hia by assumption.
  injection Hia as <-.
  pose proof (acos_below_diagonal x y (r1 x y)
                (r1_pos x y H1) (conj Hy0 Hx) (r1_sq x y)) as Hal.
  pose proof (acos_below_diagonal (1 - x) y (r2 x y)
                (r2_pos x y H2) (conj Hy0 Hx') (r2_sq x y)) as Hbe.
  set (al := acos (x / r1 x y)) in *.
  set (be := acos ((1 - x) / r2 x y)) in *.
  assert (0 <= r1 x y ^ 2 * (PI / 4 - al)) by (apply Rmult_le_pos; lra).
  assert (0 <= r2 x y ^ 2 * (PI / 4 - be)) by (apply Rmult_le_pos; lra).
  lra.
Qed.

Lemma canonical_sample : canonical (1 / 2) (1 / 4).
Proof. unfold canonical; lra. Qed.

Lemma A_range_on_canonical_witness :
  canonical (1 / 2) (1 / 4) /\
  exists v, A (1 / 2) (1 / 4) = Some v /\ 0 <= v <= PI / 2.
Proof.
  split; [exact canonical_sample |].
  exact (A_range_on_canonical (1 / 2) (1 / 4) canonical_sample).
Defined.

(** *** Reflection across the vertical midline *)

Lemma c_ad_reflect (x y : R) : c_ad (1 - x) y = c_bd x y.
Proof.
  unfold c_ad, c_bd; rewrite r2_reflect.
  change (r1 (1 - x) y) with (r2 x y); reflexivity.
Qed.

Lemma c_bd_reflect (x y : R) : c_bd (1 - x) y = c_ad x y.
Proof.
  unfold c_ad, c_bd; rewrite r2_reflect.
  change (r1 (1 - x) y) with (r2 x y); reflexivity.
Qed.

Lemma intersection_area_reflect (x y : R) :
  intersection_area (1 - x) y = intersection_area x y.
Proof.
  unfold intersection_area.
  rewrite c_ad_reflect, c_bd_reflect, r2_reflect.
  change (r1 (1 - x) y) with (r2 x y).
  rewrite orb_comm.
  destruct (is_zero (r1 x y) || is_zero (r2 x y))%bool; [reflexivity|].
  destruct (c_ad x y) as [cad|], (c_bd x y) as [cbd|]; cbn [bind];
    try reflexivity.
  f_equal; ring.
Qed.

(** Claim C4.  The valid area is symmetric under reflection of the blue
    point across the vertical midline, [A(x, y) = A(1 - x, y)], for every
    [(x, y)]: the reflection exchanges [r1] with [r2] and the chord angle
    [c_ad] with [c_bd]. *)
Theorem A_reflect (x y : R) :
  r1 (1 - x) y = r2 x y /\ r2 (1 - x) y = r1 x y /\
  c_ad (1 - x) y = c_bd x y /\ c_bd (1 - x) y = c_ad x y /\
  A x y = A (1 - x) y.
Proof.
  repeat split;
    auto using r1_reflect, r2_reflect, c_ad_reflect, c_bd_reflect.
  unfold A; rewrite intersection_area_reflect, r2_reflect.
  change (r1 (1 - x) y) with (r2 x y).
  destruct (intersection_area x y); cbn [bind]; [f_equal; ring | reflexivity].
Qed.

(** *** Zero radius *)

(** Claim C5.  [intersection_area] returns exactly 0 whenever a radius is
    zero, that is whenever [x^2 + y^2 = 0] or [(1 - x)^2 + y^2 = 0];
    [c_ad] returns the angle 0 when [r1 = 0] and [c_bd] when [r2 = 0].
    The guard is taken before the division by [2 r1] (resp. [2 r2]),
    which on a zero radius would have produced a non-finite value. *)
Theorem zero_radius_guard (x y : R) :
  (r1 x y = 0 <-> x ^ 2 + y ^ 2 = 0) /\
  (r2 x y = 0 <-> (1 - x) ^ 2 + y ^ 2 = 0) /\
  (x ^ 2 + y ^ 2 = 0 \/ (1 - x) ^ 2 + y ^ 2 = 0 ->
   intersection_area x y = Some 0) /\
  (r1 x y = 0 ->
   c_ad x y = Some 0 /\
   np_div (r1 x y ^ 2 + 1 - r2 x y ^ 2) (2 * r1 x y) = None) /\
  (r2 x y = 0 ->
   c_bd x y = Some 0 /\
   np_div (r2 x y ^ 2 + 1 - r1 x y ^ 2) (2 * r2 x y) = None).
Proof.
  split; [apply r1_zero_iff|]. split; [apply r2_zero_iff|].
  split; [|split].
  - intros [H | H]; apply intersection_area_zero_radius;
      [left; now apply r1_zero_iff | right; now apply r2_zero_iff].
  - intros H; split; [now apply c_ad_zero_radius|].
    unfold np_div; destruct (Req_dec_T (2 * r1 x y) 0); [reflexivity | lra].
  - intros H; split; [now apply c_bd_zero_radius|].
    unfold np_div; destruct (Req_dec_T (2 * r2 x y) 0); [reflexivity | lra].
Qed.

Lemma left_corner : 0 ^ 2 + 0 ^ 2 = 0.
Proof. ring. Qed.

Lemma right_corner : (1 - 1) ^ 2 + 0 ^ 2 = 0.
Proof. ring. Qed.

Lemma zero_radius_guard_witness :
  intersection_area 0 0 = Some 0 /\ c_ad 0 0 = Some 0 /\
  intersection_area 1 0 = Some 0 /\ c_bd 1 0 = Some 0.
Proof.
  pose proof (zero_radius_guard 0 0) as (Hr1 & _ & Hia & Had & _).
  pose proof (zero_radius_guard 1 0) as (_ & Hr2 & Hia' & _ & Hbd).
  repeat split.
  - apply Hia; left; exact left_corner.
  - apply Had, Hr1, left_corner.
  - apply Hia'; right; exact right_corner.
  - apply Hbd, Hr2, right_corner.
Defined.

(** *** The argument of the inverse cosine *)

(** Over the reals: in [c_ad] and in [c_bd], whenever the respective
    radius is not zero, the value handed to [np.arccos] is the quotient
    clipped into [[-1, 1]], so [np.arccos] answers with a proper angle
    and both functions return a number on every input. *)
Theorem arccos_argument_clamped (x y : R) :
  (r1 x y <> 0 ->
   let arg :=
     np_clip ((r1 x y ^ 2 + 1 - r2 x y ^ 2) / (2 * r1 x y)) (-1) 1 in
   -1 <= arg <= 1 /\ np_arccos arg = Some (acos arg) /\
   c_ad x y = Some (2 * acos arg)) /\
  (r2 x y <> 0 ->
   let arg :=
     np_clip ((r2 x y ^ 2 + 1 - r1 x y ^ 2) / (2 * r2 x y)) (-1) 1 in
   -1 <= arg <= 1 /\ np_arccos arg = Some (acos arg) /\
   c_bd x y = Some (2 * acos arg)) /\
  (exists th, c_ad x y = Some th) /\
  (exists th, c_bd x y = Some th).
Proof.
  repeat split.
  - apply np_clip_range.
  - apply np_clip_range.
  - apply np_arccos_in_range, np_clip_range.
  - now apply c_ad_value.
  - apply np_clip_range.
  - apply np_clip_range.
  - apply np_arccos_in_range, np_clip_range.
  - now apply c_bd_value.
  - destruct (c_ad_angle x y) as (th & H & _); now exists th.
  - destruct (c_bd_angle x y) as (th & H & _); now exists th.
Qed.

Lemma r1_sample_nonzero : r1 (1 / 2) (1 / 4) <> 0.
Proof. intros H; apply r1_zero_iff in H; lra. Qed.

Lemma r2_sample_nonzero : r2 (1 / 2) (1 / 4) <> 0.
Proof. intros H; apply r2_zero_iff in H; lra. Qed.

Lemma arccos_argument_clamped_witness :
  r1 (1 / 2) (1 / 4) <> 0 /\ r2 (1 / 2) (1 / 4) <> 0 /\
  (exists arg, -1 <= arg <= 1 /\ c_ad (1 / 2) (1 / 4) = Some (2 * acos arg)) /\
  (exists arg, -1 <= arg <= 1 /\ c_bd (1 / 2) (1 / 4) = Some (2 * acos arg)).
Proof.
  pose proof (arccos_argument_clamped (1 / 2) (1 / 4)) as (Had & Hbd & _).
  split; [exact r1_sample_nonzero|]. split; [exact r2_sample_nonzero|].
  split.
  - destruct (Had r1_sample_nonzero) as (Hr & _ & Hv).
    eexists; split; [exact Hr | exact Hv].
  - destruct (Hbd r2_sample_nonzero) as (Hr & _ & Hv).
    eexists; split; [exact Hr | exact Hv].
Defined.

(** *** Sign of the lens area *)

(** Claim C9.  For every real [(x, y)], in the canonical region or not,
    [intersection_area x y] is a number and is not negative: the angles
    returned by [c_ad] and [c_bd] lie in [[0, 2 pi]], [th - sin th] is
    not negative for such [th], and so each summand of the lens formula
    is not negative. *)
Theorem intersection_area_nonneg_everywhere (x y : R) :
  exists cad cbd ia,
    c_ad x y = Some cad /\ 0 <= cad <= 2 * PI /\
    c_bd x y = Some cbd /\ 0 <= cbd <= 2 * PI /\
    0 <= r1 x y ^ 2 * (cad - sin cad) /\
    0 <= r2 x y ^ 2 * (cbd - sin cbd) /\
    intersection_area x y = Some ia /\ 0 <= ia.
Proof.
  destruct (c_ad_angle x y) as (cad & Ha & Hca).
  destruct (c_bd_angle x y) as (cbd & Hb & Hcb).
  destruct (intersection_area_nonneg x y) as (ia & Hia & Hpos).
  exists cad, cbd, ia.
  pose proof (sin_le_self cad (proj1 Hca)).
  pose proof (sin_le_self cbd (proj1 Hcb)).
  repeat split; try assumption; try tauto.
  - apply Rmult_le_pos; [apply pow2_ge_0 | lra].
  - apply Rmult_le_pos; [apply pow2_ge_0 | lra].
Qed.

End GeometryFacts.

(** ** Proofs about the simulator *)

Section SimulatorFacts.
Import Simulator.
Local Open Scope Q_scope.

(** *** Array plumbing *)

Lemma map2_map {A B C D : Type} (f : B -> C -> D) (g : A -> B) (h : A -> C)
      (l : list A) :
  map2 f (map g l) (map h l) = map (fun a => f (g a) (h a)) l.
Proof.
  induction l as [|a l IH]; cbn; [reflexivity | now rewrite IH].
Qed.

Lemma select_map {A B : Type} (f : A -> bool) (g : A -> B) (l : list A) :
  select (map f l) (map g l) = map g (filter f l).
Proof.
  induction l as [|a l IH]; cbn; [reflexivity|].
  destruct (f a); cbn; now rewrite IH.
Qed.

Lemma select_filter {A : Type} (f : A -> bool) (l : list A) :
  select (map f l) l = filter f l.
Proof.
  rewrite <- (map_id l) at 2; rewrite select_map; apply map_id.
Qed.

Lemma np_sum_map {A : Type} (f : A -> bool) (l : list A) :
  np_sum (map f l) = length (filter f l).
Proof.
  unfold np_sum; induction l as [|a l IH]; cbn; [reflexivity|].
  destruct (f a); cbn; now rewrite IH.
Qed.

Lemma Forall_firstn {A : Type} (P : A -> Prop) (n : nat) (l : list A) :
  Forall P l -> Forall P (firstn n l).
Proof.
  intros H; revert n; induction H as [|a l Ha Hl IH]; intros [|n]; cbn;
    constructor; auto.
Qed.

Lemma draw_rows_length (src : source) (n pos : nat) :
  length (draw_rows src n pos) = n.
Proof. unfold draw_rows; now rewrite length_map, length_seq. Qed.

(** *** The rejection loop *)

Lemma valid_columns (rows : list point) :
  map2 andb
    (map2 andb (map (fun y => Qle_bool y 0.5) (map (proj col1) rows))
               (map2 Qle_bool (map (proj col1) rows) (map (proj col0) rows)))
    (map2 Qle_bool (map (proj col1) rows)
                   (map (fun x => 1 - x) (map (proj col0) rows)))
  = map valid rows.
Proof.
  induction rows as [|p rows IH]; [reflexivity|].
  cbn [map map2]; rewrite IH; reflexivity.
Qed.

Lemma loop_body_spec (src : source) (n : Z) (blue : list point) (pos : nat) :
  (0 <= n)%Z ->
  loop_body src n blue pos =
  Ret (blue ++ filter valid (draw_rows src (Z.to_nat n) pos),
       (pos + 2 * Z.to_nat n)%nat).
Proof.
  intros Hn; unfold loop_body, np_random_rand.
  apply Z.ltb_ge in Hn; rewrite Hn; cbn [bind column rows_where].
  rewrite valid_columns, length_map, Nat.eqb_refl, select_filter.
  reflexivity.
Qed.

Lemma blue_loop_unfold (src : source) (n : Z) (fuel : nat)
      (blue : list point) (pos : nat) :
  blue_loop src n fuel blue pos =
  if (Z.of_nat (length blue) <? n)%Z then
    match fuel with
    | O => None
    | S fuel' =>
        match loop_body src n blue pos with
        | Ret (blue', pos') => blue_loop src n fuel' blue' pos'
        | Raise e => Some (Raise e)
        end
    end
  else Some (Ret (blue, pos)).
Proof. destruct fuel; reflexivity. Qed.

(** What the loop hands over, when it ends: enough points, all of them
    accepted by the membership test and all of them drawn from the
    source. *)
Lemma blue_loop_exit (src : source) (n : Z) (P : point -> Prop) :
  (forall m pos p, In p (draw_rows src m pos) -> P p) ->
  forall fuel blue pos acc pos',
    blue_loop src n fuel blue pos = Some (Ret (acc, pos')) ->
    Forall (fun p => valid p = true /\ P p) blue ->
    (n <= Z.of_nat (length acc))%Z /\
    Forall (fun p => valid p = true /\ P p) acc.
Proof.
  intros Hdrawn.
  induction fuel as [|fuel IH]; intros blue pos acc pos' Hrun Hblue;
    rewrite blue_loop_unfold in Hrun;
    destruct (Z.of_nat (length blue) <? n)%Z eqn:Hlt;
    try discriminate.
  - injection Hrun as <- <-; apply Z.ltb_ge in Hlt; now split.
  - rewrite loop_body_spec in Hrun by (apply Z.ltb_lt in Hlt; lia).
    apply IH in Hrun; [exact Hrun|].
    apply Forall_app; split; [exact Hblue|].
    apply Forall_forall; intros p Hp; apply filter_In in Hp as [Hin Hv].
    split; [exact Hv | now apply Hdrawn in Hin].
  - injection Hrun as <- <-; apply Z.ltb_ge in Hlt; now split.
Qed.

Lemma draw_rows_range (src : source) (lo hi : Q) :
  (forall i, lo <= src i /\ src i < hi) ->
  forall m pos p, In p (draw_rows src m pos) ->
    (lo <= fst p /\ fst p < hi) /\ (lo <= snd p /\ snd p < hi).
Proof.
  intros Hsrc m pos p Hin; unfold draw_rows in Hin.
  apply in_map_iff in Hin as (i & <- & _); cbn [fst snd].
  split; apply Hsrc.
Qed.

(** The loop ends as soon as the batches drawn so far hold enough
    accepted points, and more fuel does not change what it returns. *)
Lemma blue_loop_returns (src : source) (n : Z) (k : nat) :
  forall blue pos,
    (n <= Z.of_nat (length (blue ++ accepted src (Z.to_nat n) k pos)))%Z ->
    exists acc pos',
      forall fuel, (k <= fuel)%nat ->
        blue_loop src n fuel blue pos = Some (Ret (acc, pos')).
Proof.
  induction k as [|k IH]; intros blue pos Hlen.
  - exists blue, pos; intros fuel _; rewrite blue_loop_unfold.
    cbn [accepted] in Hlen; rewrite app_nil_r in Hlen.
    apply Z.ltb_ge in Hlen; now rewrite Hlen.
  - destruct (Z.of_nat (length blue) <? n)%Z eqn:Hlt.
    + cbn [accepted] in Hlen; rewrite app_assoc in Hlen.
      destruct (IH _ _ Hlen) as (acc & pos' & Hrun).
      exists acc, pos'; intros [|fuel] Hfuel; [lia|].
      rewrite blue_loop_unfold, Hlt.
      rewrite loop_body_spec by (apply Z.ltb_lt in Hlt; lia).
      apply Hrun; lia.
    + exists blue, pos; intros fuel _.
      now rewrite blue_loop_unfold, Hlt.
Qed.

Lemma valid_true (p : point) :
  valid p = true <->
  snd p <= 0.5 /\ snd p <= fst p /\ snd p <= 1 - fst p.
Proof.
  unfold valid; rewrite !andb_true_iff, !Qle_bool_iff; tauto.
Qed.

Lemma in_triangle_unit_square (p : point) :
  in_triangle p -> in_unit_square p.
Proof.
  unfold in_triangle, in_unit_square; intros (H0 & H1 & H2 & H3).
  assert (H5 : 0.5 <= 1) by discriminate.
  repeat split; lra.
Qed.

Lemma py_slice_to_nonneg {A : Type} (l : list A) (n : Z) :
  (0 <= n)%Z -> py_slice_to l n = firstn (Z.to_nat n) l.
Proof.
  intros Hn; unfold py_slice_to; apply Z.ltb_ge in Hn; now rewrite Hn.
Qed.

Lemma np_array_nonempty (l : list point) :
  (0 < length l)%nat -> np_array l = Arr2 l.
Proof. destruct l; cbn; [lia | reflexivity]. Qed.

(** *** The pair evaluator *)

Lemma mask_spec (red blue : list point) :
  mask (Arr2 red) (Arr2 blue) = Ret (map retained (combine blue red)).
Proof.
  unfold mask, np_isclose; cbn [bind column]; f_equal.
  revert red; induction blue as [|b blue IH]; intros [|r red];
    try reflexivity.
  cbn [map map2 combine]; now rewrite IH.
Qed.

Lemma select_combine_fst {A B C : Type} (f : A * B -> bool) (g : A -> C)
      (l : list A) (l' : list B) :
  length l = length l' ->
  select (map f (combine l l')) (map g l) =
  map (fun ab => g (fst ab)) (filter f (combine l l')).
Proof.
  revert l'; induction l as [|a l IH]; intros [|b l'] Hlen;
    try reflexivity; try discriminate.
  cbn [combine map select filter]; injection Hlen as Hlen.
  destruct (f (a, b)); cbn [map fst]; now rewrite IH.
Qed.

Lemma select_combine_snd {A B C : Type} (f : A * B -> bool) (g : B -> C)
      (l : list A) (l' : list B) :
  length l = length l' ->
  select (map f (combine l l')) (map g l') =
  map (fun ab => g (snd ab)) (filter f (combine l l')).
Proof.
  revert l'; induction l as [|a l IH]; intros [|b l'] Hlen;
    try reflexivity; try discriminate.
  cbn [combine map select filter]; injection Hlen as Hlen.
  destruct (f (a, b)); cbn [map snd]; now rewrite IH.
Qed.

Lemma a_vals_columns (kept : list (point * point)) :
  let rx := map (fun pr => proj col0 (snd pr)) kept in
  let bx := map (fun pr => proj col0 (fst pr)) kept in
  let ry := map (fun pr => proj col1 (snd pr)) kept in
  let by_ := map (fun pr => proj col1 (fst pr)) kept in
  map2 np_divide
    (map2 Qminus
       (map2 Qplus
          (map2 Qminus (map (fun v => v ^ 2) rx) (map (fun v => v ^ 2) bx))
          (map (fun v => v ^ 2) ry))
       (map (fun v => v ^ 2) by_))
    (map (fun v => 2 * v) (map2 Qminus rx bx))
  = map quotient kept.
Proof.
  induction kept as [|[[x1 y1] [x2 y2]] kept IH]; [reflexivity|].
  cbn [map map2] in *; rewrite IH; reflexivity.
Qed.

Lemma a_vals_spec (red blue : list point) :
  length blue = length red ->
  a_vals (Arr2 red) (Arr2 blue) (map retained (combine blue red)) =
  Ret (map quotient (filter retained (combine blue red))).
Proof.
  intros Hlen; unfold a_vals, masked_column.
  rewrite length_map, length_combine, <- Hlen, Nat.min_id, Nat.eqb_refl.
  rewrite !select_combine_fst, !select_combine_snd by exact Hlen.
  cbn [bind]; f_equal; apply a_vals_columns.
Qed.

Lemma tolerance_pos (x : Q) : 0 < 1e-8 + rtol_default * Qabs x.
Proof.
  apply Qlt_le_trans with (1e-8 + 0); [reflexivity|].
  apply Qplus_le_r, Qmult_le_0_compat; [discriminate | apply Qabs_nonneg].
Qed.

Lemma excluded_iff (pr : point * point) :
  excluded pr = true <->
  Qabs (fst (snd pr) - fst (fst pr))
  <= 1e-8 + rtol_default * Qabs (fst (fst pr)).
Proof. unfold excluded, isclose; apply Qle_bool_iff. Qed.

Lemma retained_iff (pr : point * point) :
  retained pr = true <->
  1e-8 + rtol_default * Qabs (fst (fst pr))
  < Qabs (fst (snd pr) - fst (fst pr)).
Proof.
  unfold retained; rewrite negb_true_iff, <- not_true_iff_false, excluded_iff.
  split; [apply Qnot_le_lt | apply Qlt_not_le].
Qed.

Lemma retained_denominator (pr : point * point) :
  retained pr = true -> ~ 2 * (fst (snd pr) - fst (fst pr)) == 0.
Proof.
  intros Hr Hz; apply retained_iff in Hr.
  pose proof (tolerance_pos (fst (fst pr))) as Hpos.
  assert (Hd : fst (snd pr) - fst (fst pr) == 0) by lra.
  rewrite Hd in Hr; cbn [Qabs Z.abs Qnum Qden] in Hr.
  apply (Qlt_irrefl 0); eapply Qlt_trans; eassumption.
Qed.

(** No division by zero among the retained pairs. *)
Lemma retained_quotient (pr : point * point) :
  retained pr = true -> quotient pr = Fin (candidate pr).
Proof.
  intros Hr; apply retained_denominator in Hr.
  destruct pr as [[x1 y1] [x2 y2]]; cbn [fst snd] in Hr.
  unfold quotient, candidate, np_divide.
  destruct (Qeq_bool (2 * (x2 - x1)) 0) eqn:Hz; [|reflexivity].
  apply Qeq_bool_iff in Hz; contradiction.
Qed.

Lemma a_vals_retained (red blue : list point) :
  length blue = length red ->
  a_vals (Arr2 red) (Arr2 blue) (map retained (combine blue red)) =
  Ret (map (fun pr => Fin (candidate pr))
           (filter retained (combine blue red))).
Proof.
  intros Hlen; rewrite a_vals_spec by exact Hlen; f_equal.
  apply map_ext_in; intros pr Hin.
  apply filter_In in Hin; now apply retained_quotient.
Qed.

Lemma successes_spec (kept : list (point * point)) :
  successes (map (fun pr => Fin (candidate pr)) kept) =
  length (filter success kept).
Proof.
  unfold successes; rewrite !map_map, map2_map.
  apply np_sum_map.
Qed.

Lemma success_iff (pr : point * point) :
  success pr = true <-> 0 <= candidate pr /\ candidate pr <= 1.
Proof. unfold success; now rewrite andb_true_iff, !Qle_bool_iff. Qed.

Lemma success_fraction_spec (red blue : list point) :
  length blue = length red ->
  success_fraction (Arr2 red) (Arr2 blue) =
  Ret (true_divide
         (length (filter success (filter retained (combine blue red))))
         (length (filter retained (combine blue red)))).
Proof.
  intros Hlen; unfold success_fraction.
  rewrite mask_spec; cbn [bind].
  rewrite a_vals_retained by exact Hlen; cbn [bind].
  now rewrite successes_spec, np_sum_map.
Qed.

(** The loop has no round limit: on a source that never yields an
    accepted point it runs for ever, whatever the fuel. *)
Lemma rejecting_source_never_returns (fuel pos : nat) :
  blue_loop rejecting_source 1 fuel [] pos = None.
Proof.
  revert pos; induction fuel as [|fuel IH]; intros pos; [reflexivity|].
  rewrite blue_loop_unfold; cbn [length Z.of_nat Z.ltb Z.compare].
  rewrite loop_body_spec by lia.
  apply IH.
Qed.

(** Claim C7.  For every target count [N >= 1] the rejection sampler
    returns exactly [N] points, each of which satisfies the membership
    test [0 <= y <= 0.5], [y <= x], [y <= 1 - x] and has both
    coordinates in [[0, 1]].  The random source is taken to deliver
    numbers of [[0, 1)], and the loop to have met [N] accepted points
    within some number [k] of rounds; any fuel of at least [k] then
    gives the same result. *)
Theorem blue_sampler_exact_count (src : source) (n : Z) (k : nat) :
  (1 <= n)%Z ->
  (forall i, 0 <= src i /\ src i < 1) ->
  (n <= Z.of_nat (length (accepted src (Z.to_nat n) k 0)))%Z ->
  exists acc pos,
    (forall fuel, (k <= fuel)%nat ->
       blue_loop src n fuel [] 0 = Some (Ret (acc, pos))) /\
    let blue := py_slice_to acc n in
    Z.of_nat (length blue) = n /\
    np_array blue = Arr2 blue /\
    Forall in_triangle blue /\
    Forall in_unit_square blue.
Proof.
  intros Hn Hsrc Hacc.
  destruct (blue_loop_returns src n k [] 0 Hacc) as (acc & pos & Hrun).
  exists acc, pos; split; [exact Hrun|].
  pose proof (Hrun k (Nat.le_refl k)) as Hk.
  apply (blue_loop_exit src n (fun p => 0 <= snd p)) in Hk;
    [| intros m ps p Hin; now apply (draw_rows_range src 0 1 Hsrc) in Hin
     | constructor ].
  destruct Hk as [Hlen Hall].
  assert (Hblue : Z.of_nat (length (py_slice_to acc n)) = n).
  { rewrite py_slice_to_nonneg by lia. rewrite length_firstn; lia. }
  assert (Htri : Forall in_triangle (py_slice_to acc n)).
  { rewrite py_slice_to_nonneg by lia.
    apply Forall_firstn; eapply Forall_impl; [|exact Hall].
    intros p [Hv H0]; apply valid_true in Hv.
    unfold in_triangle; tauto. }
  cbv zeta; split; [exact Hblue|].
  split; [apply np_array_nonempty; lia|].
  split; [exact Htri|].
  eapply Forall_impl; [|exact Htri].
  intros p; apply in_triangle_unit_square.
Qed.

Lemma blue_sampler_exact_count_witness :
  (1 <= 2)%Z /\
  (forall i, 0 <= sample_tape i /\ sample_tape i < 1) /\
  (2 <= Z.of_nat (length (accepted sample_tape (Z.to_nat 2) 2 0)))%Z /\
  exists acc pos,
    (forall fuel, (2 <= fuel)%nat ->
       blue_loop sample_tape 2 fuel [] 0 = Some (Ret (acc, pos))) /\
    Z.of_nat (length (py_slice_to acc 2)) = 2%Z /\
    Forall in_triangle (py_slice_to acc 2).
Proof.
  assert (Hn : (1 <= 2)%Z) by lia.
  assert (Hsrc : forall i, 0 <= sample_tape i /\ sample_tape i < 1).
  { intros i; unfold sample_tape, tape.
    do 12 (destruct i as [|i]; [split; [discriminate | reflexivity]|]).
    cbn [nth]; destruct i; split; (discriminate || reflexivity). }
  assert (Hacc : (2 <= Z.of_nat (length (accepted sample_tape
                                            (Z.to_nat 2) 2 0)))%Z)
    by (vm_compute; discriminate).
  split; [exact Hn|]. split; [exact Hsrc|]. split; [exact Hacc|].
  destruct (blue_sampler_exact_count sample_tape 2 2 Hn Hsrc Hacc)
    as (acc & pos & Hrun & Hlen & _ & Htri & _).
  exists acc, pos; repeat split; assumption.
Defined.

(** *** The whole function *)

(** After a loop that ended with enough points, the function returns the
    success fraction of the first [num_samples] blue points paired with
    the next [num_samples] red draws. *)
Lemma vectorized_simulation_spec (src : source) (fuel : nat) (n : Z)
      (acc : list point) (pos : nat) :
  (1 <= n)%Z ->
  blue_loop src n fuel [] 0 = Some (Ret (acc, pos)) ->
  let blue := py_slice_to acc n in
  let red := draw_rows src (Z.to_nat n) pos in
  length blue = length red /\
  np_array blue = Arr2 blue /\
  vectorized_simulation src fuel n =
  Some (success_fraction (Arr2 red) (Arr2 blue)).
Proof.
  intros Hn Hrun blue red.
  destruct (blue_loop_exit src n (fun _ => True) (fun _ _ _ _ => I)
              _ _ _ _ _ Hrun (Forall_nil _)) as [Hlen _].
  assert (Hblue : length blue = Z.to_nat n).
  { unfold blue; rewrite py_slice_to_nonneg by lia.
    rewrite length_firstn; lia. }
  assert (Harr : np_array blue = Arr2 blue)
    by (apply np_array_nonempty; lia).
  split; [unfold red; now rewrite draw_rows_length|].
  split; [exact Harr|].
  unfold vectorized_simulation; rewrite Hrun.
  fold blue; rewrite Harr; unfold np_random_rand.
  replace (n <? 0)%Z with false by (symmetry; apply Z.ltb_ge; lia).
  reflexivity.
Qed.

(** Once the batches hold enough accepted points, any larger fuel makes
    the function return the fraction of successes among the retained
    pairs. *)
Lemma vectorized_simulation_returns (src : source) (n : Z) (k : nat) :
  (1 <= n)%Z ->
  (n <= Z.of_nat (length (accepted src (Z.to_nat n) k 0)))%Z ->
  exists acc pos,
    (forall fuel, (k <= fuel)%nat ->
       blue_loop src n fuel [] 0 = Some (Ret (acc, pos))) /\
    let blue := py_slice_to acc n in
    let red := draw_rows src (Z.to_nat n) pos in
    let kept := filter retained (combine blue red) in
    length blue = length red /\
    forall fuel, (k <= fuel)%nat ->
      vectorized_simulation src fuel n =
      Some (Ret (true_divide (length (filter success kept)) (length kept))).
Proof.
  intros Hn Hacc.
  destruct (blue_loop_returns src n k [] 0 Hacc) as (acc & pos & Hrun).
  exists acc, pos; split; [exact Hrun|].
  cbv zeta; split.
  - now destruct (vectorized_simulation_spec src k n acc pos Hn
                    (Hrun k (Nat.le_refl k))).
  - intros fuel Hfuel.
    destruct (vectorized_simulation_spec src fuel n acc pos Hn
                (Hrun fuel Hfuel)) as (Hlen & _ & Hsim).
    cbv zeta in Hlen, Hsim; rewrite Hsim; f_equal.
    now apply success_fraction_spec.
Qed.

(** [int / int] with a nonzero divisor is the quotient of the two
    integers. *)
Lemma true_divide_quotient (a b : nat) :
  (0 < b)%nat ->
  exists q,
    true_divide a b = Fin q /\
    q == inject_Z (Z.of_nat a) / inject_Z (Z.of_nat b).
Proof.
  intros Hb; destruct b as [|b]; [lia|].
  eexists; split; [reflexivity|].
  rewrite Qmake_Qdiv.
  now rewrite <- Pos.of_nat_succ, Zpos_P_of_succ_nat, <- Nat2Z.inj_succ.
Qed.

(** Claim C1.  For every retained pair (one the mask does not exclude)
    the candidate boundary point is computed as
    [a = (x2^2 - x1^2 + y2^2 - y1^2) / (2 (x2 - x1))]; the pair is a
    success exactly when [0 <= a <= 1], both bounds included; and the
    returned value is the number of successes divided by the number of
    retained pairs. *)
Theorem success_fraction_of_retained (src : source) (n : Z) (k : nat) :
  (1 <= n)%Z ->
  (n <= Z.of_nat (length (accepted src (Z.to_nat n) k 0)))%Z ->
  exists acc pos,
    (forall fuel, (k <= fuel)%nat ->
       blue_loop src n fuel [] 0 = Some (Ret (acc, pos))) /\
    let blue := py_slice_to acc n in
    let red := draw_rows src (Z.to_nat n) pos in
    let pairs := combine blue red in
    let kept := filter retained pairs in
    mask (Arr2 red) (Arr2 blue) = Ret (map retained pairs) /\
    a_vals (Arr2 red) (Arr2 blue) (map retained pairs) =
      Ret (map (fun pr => Fin (candidate pr)) kept) /\
    (forall x1 y1 x2 y2,
        candidate ((x1, y1), (x2, y2)) =
        (x2 ^ 2 - x1 ^ 2 + y2 ^ 2 - y1 ^ 2) / (2 * (x2 - x1))) /\
    (forall pr,
        success pr = true <-> 0 <= candidate pr /\ candidate pr <= 1) /\
    (forall pr,
        candidate pr == 0 \/ candidate pr == 1 -> success pr = true) /\
    successes (map (fun pr => Fin (candidate pr)) kept) =
      length (filter success kept) /\
    (forall fuel, (k <= fuel)%nat ->
       vectorized_simulation src fuel n =
       Some (Ret (true_divide (length (filter success kept))
                              (length kept)))) /\
    (kept = [] ->
     forall fuel, (k <= fuel)%nat ->
       vectorized_simulation src fuel n = Some (Ret NaN)) /\
    (kept <> [] ->
     exists q,
       q == inject_Z (Z.of_nat (length (filter success kept)))
            / inject_Z (Z.of_nat (length kept)) /\
       forall fuel, (k <= fuel)%nat ->
         vectorized_simulation src fuel n = Some (Ret (Fin q))).
Proof.
  intros Hn Hacc.
  destruct (vectorized_simulation_returns src n k Hn Hacc)
    as (acc & pos & Hrun & Hlen & Hsim).
  exists acc, pos; split; [exact Hrun|]; cbv zeta.
  split; [apply mask_spec|].
  split; [now apply a_vals_retained|].
  split; [reflexivity|].
  split; [apply success_iff|].
  split.
  { intros pr [H | H]; apply success_iff; rewrite H; split; discriminate. }
  split; [apply successes_spec|].
  split; [exact Hsim|].
  split.
  - intros Hnone fuel Hfuel; rewrite (Hsim fuel Hfuel), Hnone; reflexivity.
  - intros Hsome.
    destruct (true_divide_quotient
                (length (filter success
                   (filter retained
                      (combine (py_slice_to acc n)
                               (draw_rows src (Z.to_nat n) pos)))))
                (length (filter retained
                   (combine (py_slice_to acc n)
                            (draw_rows src (Z.to_nat n) pos)))))
      as (q & Hq & Hval).
    { destruct (filter retained _); [congruence | cbn; lia]. }
    exists q; split; [exact Hval|].
    intros fuel Hfuel; now rewrite (Hsim fuel Hfuel), Hq.
Qed.

Lemma sample_tape_accepted :
  (2 <= Z.of_nat (length (accepted sample_tape (Z.to_nat 2) 2 0)))%Z.
Proof. vm_compute; discriminate. Qed.

Lemma sample_tape_loop :
  blue_loop sample_tape 2 2 [] 0 =
  Some (Ret ([(0.5, 0.25); (0.7, 0.2)], 8%nat)).
Proof. reflexivity. Qed.

Lemma half_tape_accepted :
  (2 <= Z.of_nat (length (accepted half_tape (Z.to_nat 2) 1 0)))%Z.
Proof. vm_compute; discriminate. Qed.

Lemma half_tape_loop :
  blue_loop half_tape 2 1 [] 0 =
  Some (Ret ([(0.5, 0.25); (0.7, 0.2)], 4%nat)).
Proof. reflexivity. Qed.

Lemma success_fraction_of_retained_witness :
  (1 <= 2)%Z /\
  (2 <= Z.of_nat (length (accepted half_tape (Z.to_nat 2) 1 0)))%Z /\
  vectorized_simulation half_tape 1 2 = Some (Ret (Fin (1 # 2))).
Proof.
  assert (Hn : (1 <= 2)%Z) by lia.
  split; [exact Hn|]. split; [exact half_tape_accepted|].
  destruct (success_fraction_of_retained half_tape 2 1 Hn
              half_tape_accepted)
    as (acc & pos & Hrun & _ & _ & _ & _ & _ & _ & Hres & _).
  specialize (Hrun 1%nat (Nat.le_refl 1)).
  rewrite half_tape_loop in Hrun; injection Hrun as <- <-.
  exact (Hres 1%nat (Nat.le_refl 1)).
Defined.

(** *** The degeneracy mask *)

(** Claim C2 as stated fails: a pair whose abscissas differ by [1e-6],
    a hundred times the absolute tolerance, is excluded all the same,
    and with it as the only pair the function returns [nan]. *)
Lemma absolute_tolerance_counterexample :
  ~ Qabs (0.500001 - 0.5) < 1e-8 /\
  mask (Arr2 [(0.500001, 0.5)]) (Arr2 [(0.5, 0.25)]) = Ret [false] /\
  vectorized_simulation near_tape 1 1 = Some (Ret NaN).
Proof.
  split; [intros H; vm_compute in H; discriminate H|].
  split; reflexivity.
Qed.

(** Claim C2, amended.  Pair [i] is excluded exactly when
    [|x2 - x1| <= 1e-8 + 1e-5 |x1|], the test of [np.isclose] with its
    default relative tolerance; a pair with [x1 = x2] is excluded; every
    retained pair has a nonzero denominator, so all candidate values are
    finite; and the success fraction counts the retained pairs only, in
    its numerator and in its denominator. *)
Theorem mask_excludes_close_pairs (red blue : list point) :
  length blue = length red ->
  let pairs := combine blue red in
  let kept := filter retained pairs in
  mask (Arr2 red) (Arr2 blue) = Ret (map retained pairs) /\
  (forall x1 y1 x2 y2,
      retained ((x1, y1), (x2, y2)) = false <->
      Qabs (x2 - x1) <= 1e-8 + 1e-5 * Qabs x1) /\
  (forall x1 y1 x2 y2,
      x1 == x2 -> retained ((x1, y1), (x2, y2)) = false) /\
  (forall x1 y1 x2 y2,
      In ((x1, y1), (x2, y2)) kept -> ~ 2 * (x2 - x1) == 0) /\
  a_vals (Arr2 red) (Arr2 blue) (map retained pairs) =
    Ret (map (fun pr => Fin (candidate pr)) kept) /\
  success_fraction (Arr2 red) (Arr2 blue) =
    Ret (true_divide (length (filter success kept)) (length kept)).
Proof.
  intros Hlen pairs kept.
  assert (Hexcl : forall x1 y1 x2 y2,
             retained ((x1, y1), (x2, y2)) = false <->
             Qabs (x2 - x1) <= 1e-8 + 1e-5 * Qabs x1).
  { intros x1 y1 x2 y2; unfold retained; rewrite negb_false_iff.
    apply (excluded_iff ((x1, y1), (x2, y2))). }
  split; [apply mask_spec|].
  split; [exact Hexcl|].
  split.
  { intros x1 y1 x2 y2 Heq; apply Hexcl.
    assert (Hd : x2 - x1 == 0) by lra.
    rewrite Hd; apply Qlt_le_weak, (tolerance_pos x1). }
  split.
  { intros x1 y1 x2 y2 Hin; apply filter_In in Hin as [_ Hr].
    apply (retained_denominator _ Hr). }
  split; [now apply a_vals_retained | now apply success_fraction_spec].
Qed.

Lemma mask_excludes_close_pairs_witness :
  length [(0.5, 0.25); (0.5, 0.25)] = length [(0.5, 0.9); (0.25, 0.5)] /\
  mask (Arr2 [(0.5, 0.9); (0.25, 0.5)]) (Arr2 [(0.5, 0.25); (0.5, 0.25)]) =
    Ret [false; true] /\
  success_fraction (Arr2 [(0.5, 0.9); (0.25, 0.5)])
                   (Arr2 [(0.5, 0.25); (0.5, 0.25)]) = Ret (Fin 1).
Proof.
  assert (Hlen : length [(0.5, 0.25); (0.5, 0.25)] =
                 length [(0.5, 0.9); (0.25, 0.5)]) by reflexivity.
  split; [exact Hlen|].
  destruct (mask_excludes_close_pairs _ _ Hlen)
    as (Hmask & _ & _ & _ & _ & Hres).
  split; [exact Hmask | exact Hres].
Defined.

(** *** No retained pair *)

Lemma negative_samples_raise (src : source) (fuel : nat) (n : Z) :
  (n < 0)%Z -> vectorized_simulation src fuel n = Some (Raise ValueError).
Proof.
  intros Hn; unfold vectorized_simulation.
  rewrite blue_loop_unfold; cbn [length Z.of_nat].
  replace (0 <? n)%Z with false by (symmetry; apply Z.ltb_ge; lia).
  unfold np_random_rand.
  apply Z.ltb_lt in Hn; rewrite Hn; reflexivity.
Qed.

Lemma zero_samples_raise (src : source) (fuel : nat) :
  vectorized_simulation src fuel 0 = Some (Raise IndexError).
Proof. destruct fuel; reflexivity. Qed.

(** Claim C10 as stated fails for [num_samples = 0]: the empty blue list
    becomes a one-dimensional array, and [blue[:, 0]] raises. *)
Lemma zero_samples_counterexample :
  vectorized_simulation (tape []) 1 0 = Some (Raise IndexError) /\
  vectorized_simulation (tape []) 1 0 <> Some (Ret NaN).
Proof. split; [reflexivity | discriminate]. Qed.

(** Claim C10, amended.  For [num_samples >= 1] the final division is
    unguarded: when the mask retains no pair the function still returns
    without raising, and what it returns is [0/0], that is [nan], not a
    probability. *)
Theorem no_retained_pair_gives_nan (src : source) (n : Z) (k : nat) :
  (1 <= n)%Z ->
  (n <= Z.of_nat (length (accepted src (Z.to_nat n) k 0)))%Z ->
  exists acc pos,
    (forall fuel, (k <= fuel)%nat ->
       blue_loop src n fuel [] 0 = Some (Ret (acc, pos))) /\
    let blue := py_slice_to acc n in
    let red := draw_rows src (Z.to_nat n) pos in
    length (filter retained (combine blue red)) = 0%nat ->
    true_divide 0 0 = NaN /\
    forall fuel, (k <= fuel)%nat ->
      vectorized_simulation src fuel n = Some (Ret NaN) /\
      forall q, vectorized_simulation src fuel n <> Some (Ret (Fin q)).
Proof.
  intros Hn Hacc.
  destruct (vectorized_simulation_returns src n k Hn Hacc)
    as (acc & pos & Hrun & Hlen & Hsim).
  exists acc, pos; split; [exact Hrun|]; cbv zeta.
  intros Hnone; split; [reflexivity|].
  intros fuel Hfuel; specialize (Hsim fuel Hfuel).
  apply length_zero_iff_nil in Hnone; rewrite Hnone in Hsim.
  cbn in Hsim; split; [exact Hsim|].
  intros q; rewrite Hsim; discriminate.
Qed.

Lemma equal_tape_accepted :
  (1 <= Z.of_nat (length (accepted equal_tape (Z.to_nat 1) 1 0)))%Z.
Proof. vm_compute; discriminate. Qed.

Lemma equal_tape_loop :
  blue_loop equal_tape 1 1 [] 0 = Some (Ret ([(0.5, 0.25)], 2%nat)).
Proof. reflexivity. Qed.

Lemma no_retained_pair_gives_nan_witness :
  (1 <= 1)%Z /\
  (1 <= Z.of_nat (length (accepted equal_tape (Z.to_nat 1) 1 0)))%Z /\
  length (filter retained
            (combine (py_slice_to [(0.5, 0.25)] 1)
                     (draw_rows equal_tape (Z.to_nat 1) 2))) = 0%nat /\
  vectorized_simulation equal_tape 1 1 = Some (Ret NaN).
Proof.
  assert (Hn : (1 <= 1)%Z) by lia.
  assert (Hnone : length (filter retained
                    (combine (py_slice_to [(0.5, 0.25)] 1)
                       (draw_rows equal_tape (Z.to_nat 1) 2))) = 0%nat)
    by reflexivity.
  split; [exact Hn|]. split; [exact equal_tape_accepted|].
  split; [exact Hnone|].
  destruct (no_retained_pair_gives_nan equal_tape 1 1 Hn
              equal_tape_accepted) as (acc & pos & Hrun & Hres).
  specialize (Hrun 1%nat (Nat.le_refl 1)).
  rewrite equal_tape_loop in Hrun; injection Hrun as <- <-.
  destruct (Hres Hnone) as [_ Hnan].
  exact (proj1 (Hnan 1%nat (Nat.le_refl 1))).
Defined.

End SimulatorFacts.

(** ** Further facts about the simulator *)

Section SimulatorExtras.
Import Simulator.
Local Open Scope Q_scope.

(** *** The candidate boundary point *)

Lemma retained_distinct (x1 y1 x2 y2 : Q) :
  retained ((x1, y1), (x2, y2)) = true -> ~ x1 == x2.
Proof.
  intros Hr Heq.
  apply (retained_denominator _ Hr); cbn [fst snd]; lra.
Qed.

(** The candidate [a] of a pair with distinct abscissas (every retained
    pair is one) is the one point [(a, 0)] of the bottom line at equal
    distance from the blue and from the red point; exchanging the two
    points does not change it. *)
Theorem candidate_equidistant (x1 y1 x2 y2 : Q) :
  (retained ((x1, y1), (x2, y2)) = true -> ~ x1 == x2) /\
  (~ x1 == x2 ->
   let a := candidate ((x1, y1), (x2, y2)) in
   (x1 - a) ^ 2 + y1 ^ 2 == (x2 - a) ^ 2 + y2 ^ 2 /\
   (forall a', (x1 - a') ^ 2 + y1 ^ 2 == (x2 - a') ^ 2 + y2 ^ 2 -> a' == a) /\
   candidate ((x2, y2), (x1, y1)) == a).
Proof.
  split; [apply retained_distinct|].
  intros Hne; cbv zeta; unfold candidate.
  assert (Hd : ~ x2 - x1 == 0) by (intros H; apply Hne; lra).
  assert (Hd' : ~ x1 - x2 == 0) by (intros H; apply Hne; lra).
  split; [field; exact Hd|].
  split; [|field; split; assumption].
  intros a' Heq.
  assert (Hlin : 2 * (x2 - x1) * a' ==
                 x2 ^ 2 - x1 ^ 2 + y2 ^ 2 - y1 ^ 2).
  { assert (E : 2 * (x2 - x1) * a'
                 - (x2 ^ 2 - x1 ^ 2 + y2 ^ 2 - y1 ^ 2) ==
                 ((x1 - a') ^ 2 + y1 ^ 2) - ((x2 - a') ^ 2 + y2 ^ 2))
      by ring.
    rewrite Heq in E.
    set (l := 2 * (x2 - x1) * a') in *.
    set (r := x2 ^ 2 - x1 ^ 2 + y2 ^ 2 - y1 ^ 2) in *.
    set (t := (x2 - a') ^ 2 + y2 ^ 2) in *.
    lra. }
  rewrite <- Hlin; field; exact Hd.
Qed.

Lemma candidate_equidistant_witness :
  ~ 0.5 == 0.25 /\
  (0.5 - candidate ((0.5, 0.25), (0.25, 0.5))) ^ 2 + 0.25 ^ 2 ==
  (0.25 - candidate ((0.5, 0.25), (0.25, 0.5))) ^ 2 + 0.5 ^ 2.
Proof.
  assert (Hne : ~ 0.5 == 0.25) by discriminate.
  split; [exact Hne|].
  exact (proj1 (proj2 (candidate_equidistant 0.5 0.25 0.25 0.5) Hne)).
Defined.

(** With [u] and [v] the excess of the red point's squared distance to
    the left and to the right corner over the blue point's, the
    candidate is [u / (u - v)] and the success test reads [u v <= 0]. *)
Lemma candidate_times_denominator (x1 y1 x2 y2 : Q) :
  ~ x1 == x2 ->
  candidate ((x1, y1), (x2, y2)) * (2 * (x2 - x1)) ==
  sqdist_left (x2, y2) - sqdist_left (x1, y1).
Proof.
  intros Hne; unfold candidate, sqdist_left; cbn [fst snd].
  field; intros H; apply Hne; lra.
Qed.

Lemma sqdist_right_excess (x1 y1 x2 y2 : Q) :
  sqdist_right (x2, y2) - sqdist_right (x1, y1) ==
  sqdist_left (x2, y2) - sqdist_left (x1, y1) - 2 * (x2 - x1).
Proof. unfold sqdist_left, sqdist_right; cbn [fst snd]; ring. Qed.

Lemma unit_interval_product (u d a : Q) :
  ~ d == 0 -> a * d == u ->
  (0 <= a /\ a <= 1 <-> u * (u - d) <= 0).
Proof.
  intros Hd Ha.
  assert (Hdd : 0 < d * d) by nra.
  assert (E : u * (u - d) == (d * d) * (a * (a - 1)))
    by (rewrite <- Ha; ring).
  rewrite E; split.
  - intros [H0 H1]; assert (a * (a - 1) <= 0) by nra; nra.
  - intros H; assert (a * (a - 1) <= 0) by nra; split; nra.
Qed.

Lemma success_between_corners (x1 y1 x2 y2 : Q) :
  ~ x1 == x2 ->
  (success ((x1, y1), (x2, y2)) = true <->
   (sqdist_left (x2, y2) - sqdist_left (x1, y1))
   * (sqdist_right (x2, y2) - sqdist_right (x1, y1)) <= 0).
Proof.
  intros Hne; rewrite success_iff, sqdist_right_excess.
  apply unit_interval_product.
  - intros H; apply Hne; lra.
  - now apply candidate_times_denominator.
Qed.

(** For a pair with distinct abscissas (every retained pair is one) the
    success test [0 <= a <= 1] holds exactly when the red point is no
    farther from one bottom corner than the blue point, and no nearer
    to the other: it lies in one of the two corner circles through the
    blue point and not inside the other, borders included. *)
Theorem success_iff_between_circles (x1 y1 x2 y2 : Q) :
  ~ x1 == x2 ->
  (success ((x1, y1), (x2, y2)) = true <->
   (sqdist_left (x2, y2) <= sqdist_left (x1, y1) /\
    sqdist_right (x1, y1) <= sqdist_right (x2, y2)) \/
   (sqdist_left (x1, y1) <= sqdist_left (x2, y2) /\
    sqdist_right (x2, y2) <= sqdist_right (x1, y1))).
Proof.
  intros Hne; rewrite (success_between_corners _ _ _ _ Hne).
  set (u := sqdist_left (x2, y2) - sqdist_left (x1, y1)).
  set (v := sqdist_right (x2, y2) - sqdist_right (x1, y1)).
  assert (Hu : sqdist_left (x2, y2) == sqdist_left (x1, y1) + u)
    by (unfold u; ring).
  assert (Hv : sqdist_right (x2, y2) == sqdist_right (x1, y1) + v)
    by (unfold v; ring).
  rewrite Hu, Hv; split.
  - intros H.
    destruct (Qlt_le_dec 0 u) as [Hpos | Hneg].
    + right; split; [lra | nra].
    + destruct (Qlt_le_dec v 0) as [Hv' | Hv'].
      * right; split; [nra | lra].
      * left; split; lra.
  - intros [[H1 H2] | [H1 H2]]; nra.
Qed.

Lemma success_iff_between_circles_witness :
  ~ 0.5 == 0.25 /\ success ((0.5, 0.25), (0.25, 0.5)) = true.
Proof.
  assert (Hne : ~ 0.5 == 0.25) by discriminate.
  split; [exact Hne|].
  apply (proj2 (success_iff_between_circles 0.5 0.25 0.25 0.5 Hne)).
  left; split; discriminate.
Defined.

(** *** The rounds of the rejection loop *)

Lemma accepted_snoc (src : source) (n k pos : nat) :
  accepted src n (S k) pos =
  accepted src n k pos
  ++ filter valid (draw_rows src n (pos + 2 * n * k)).
Proof.
  revert pos; induction k as [|k IH]; intros pos.
  - cbn [accepted]; rewrite app_nil_r.
    now replace (pos + 2 * n * 0)%nat with pos by lia.
  - change (accepted src n (S (S k)) pos)
      with (filter valid (draw_rows src n pos)
            ++ accepted src n (S k) (pos + 2 * n)).
    rewrite IH; cbn [accepted]; rewrite app_assoc.
    do 3 f_equal; lia.
Qed.

Lemma accepted_prefix (src : source) (n j k pos : nat) :
  (j <= k)%nat ->
  exists rest, accepted src n k pos = accepted src n j pos ++ rest.
Proof.
  induction 1 as [|k Hle [rest IH]].
  - exists []; now rewrite app_nil_r.
  - rewrite accepted_snoc, IH, <- app_assoc; now eexists.
Qed.

Lemma accepted_length_mono (src : source) (n j k pos : nat) :
  (j <= k)%nat ->
  (length (accepted src n j pos) <= length (accepted src n k pos))%nat.
Proof.
  intros Hle; destruct (accepted_prefix src n j k pos Hle) as [rest ->].
  rewrite length_app; lia.
Qed.

Lemma batch_length (src : source) (n pos : nat) :
  (length (filter valid (draw_rows src n pos)) <= n)%nat.
Proof.
  rewrite <- (draw_rows_length src n pos) at 2; apply filter_length_le.
Qed.

(** The loop is still running after [fuel] rounds exactly when the
    points on hand and those accepted in these rounds are too few. *)
Lemma blue_loop_none_iff (src : source) (n : Z) (fuel : nat) :
  forall blue pos,
    blue_loop src n fuel blue pos = None <->
    (Z.of_nat (length (blue ++ accepted src (Z.to_nat n) fuel pos)) < n)%Z.
Proof.
  induction fuel as [|fuel IH]; intros blue pos; rewrite blue_loop_unfold;
    destruct (Z.of_nat (length blue) <? n)%Z eqn:Hlt.
  - cbn [accepted]; rewrite app_nil_r; apply Z.ltb_lt in Hlt; tauto.
  - cbn [accepted]; rewrite app_nil_r; apply Z.ltb_ge in Hlt.
    split; [discriminate | lia].
  - rewrite loop_body_spec by (apply Z.ltb_lt in Hlt; lia).
    rewrite IH; cbn [accepted]; now rewrite app_assoc.
  - apply Z.ltb_ge in Hlt; split; [discriminate|].
    rewrite length_app; lia.
Qed.

(** When the loop ends it has run some number [j] of rounds, holds the
    points accepted in them and has read [2 n j] numbers; after fewer
    rounds the points were too few. *)
Lemma blue_loop_some (src : source) (n : Z) (fuel : nat) :
  forall blue pos r,
    blue_loop src n fuel blue pos = Some r ->
    exists j,
      (j <= fuel)%nat /\
      r = Ret (blue ++ accepted src (Z.to_nat n) j pos,
               (pos + 2 * Z.to_nat n * j)%nat) /\
      (n <= Z.of_nat (length (blue ++ accepted src (Z.to_nat n) j pos)))%Z /\
      forall i, (i < j)%nat ->
        (Z.of_nat (length (blue ++ accepted src (Z.to_nat n) i pos)) < n)%Z.
Proof.
  assert (Hstop : forall blue pos,
             (Z.of_nat (length blue) <? n)%Z = false ->
             exists j,
               (j <= 0)%nat /\
               Ret (blue, pos) =
               Ret (blue ++ accepted src (Z.to_nat n) j pos,
                    (pos + 2 * Z.to_nat n * j)%nat) /\
               (n <= Z.of_nat
                       (length (blue ++ accepted src (Z.to_nat n) j pos)))%Z /\
               forall i, (i < j)%nat ->
                 (Z.of_nat (length (blue ++ accepted src (Z.to_nat n) i pos))
                  < n)%Z).
  { intros blue pos Hlt; exists 0%nat; cbn [accepted].
    rewrite app_nil_r; apply Z.ltb_ge in Hlt.
    repeat split; [lia | do 2 f_equal; lia | exact Hlt | lia]. }
  induction fuel as [|fuel IH]; intros blue pos r Hrun;
    rewrite blue_loop_unfold in Hrun;
    destruct (Z.of_nat (length blue) <? n)%Z eqn:Hlt; try discriminate.
  - injection Hrun as <-; now apply Hstop.
  - rewrite loop_body_spec in Hrun by (apply Z.ltb_lt in Hlt; lia).
    destruct (IH _ _ _ Hrun) as (j & Hj & -> & Hlen & Hbefore).
    exists (S j); cbn [accepted]; rewrite app_assoc.
    split; [lia|]. split; [do 2 f_equal; lia|]. split; [exact Hlen|].
    intros [|i] Hi.
    + cbn [accepted]; rewrite app_nil_r; now apply Z.ltb_lt.
    + cbn [accepted]; rewrite app_assoc; apply Hbefore; lia.
  - injection Hrun as <-.
    destruct (Hstop blue pos Hlt) as (j & Hj & Hr & Hlen & Hbefore).
    exists j; repeat split; try assumption; lia.
Qed.

(** The rejection loop with [fuel] rounds allowed, for a target count
    [num_samples >= 1]: it is still running exactly when fewer than
    [num_samples] points were accepted in these rounds; otherwise it
    stopped after the first round [j] that brought the accepted points
    to [num_samples] or more, it returns all the points accepted in
    rounds [1..j], fewer than twice [num_samples], and it has read
    [2 * num_samples * j] numbers.  It raises nothing. *)
Theorem blue_loop_rounds (src : source) (n : Z) (fuel : nat) :
  (1 <= n)%Z ->
  let N := Z.to_nat n in
  (blue_loop src n fuel [] 0 = None <->
   (Z.of_nat (length (accepted src N fuel 0)) < n)%Z) /\
  (forall r, blue_loop src n fuel [] 0 = Some r ->
     exists j,
       (1 <= j <= fuel)%nat /\
       r = Ret (accepted src N j 0, (2 * N * j)%nat) /\
       (Z.of_nat (length (accepted src N (j - 1) 0)) < n)%Z /\
       (n <= Z.of_nat (length (accepted src N j 0)))%Z /\
       (Z.of_nat (length (accepted src N j 0)) < 2 * n)%Z).
Proof.
  intros Hn N; split; [apply (blue_loop_none_iff src n fuel [] 0%nat)|].
  intros r Hrun.
  destruct (blue_loop_some src n fuel [] 0%nat r Hrun)
    as (j & Hj & -> & Hlen & Hbefore).
  cbn [app] in Hlen, Hbefore; fold N in Hlen, Hbefore.
  destruct j as [|j]; [cbn in Hlen; lia|].
  exists (S j); cbn [app Nat.add]; fold N.
  assert (Hprev : (Z.of_nat (length (accepted src N j 0)) < n)%Z)
    by (apply Hbefore; lia).
  split; [lia|]. split; [reflexivity|].
  replace (S j - 1)%nat with j by lia.
  split; [exact Hprev|]. split; [exact Hlen|].
  rewrite accepted_snoc, length_app.
  pose proof (batch_length src N (0 + 2 * N * j)); unfold N in *; lia.
Qed.

Lemma blue_loop_rounds_witness :
  (1 <= 2)%Z /\
  blue_loop sample_tape 2 1 [] 0 = None /\
  exists j,
    blue_loop sample_tape 2 5 [] 0 =
    Some (Ret (accepted sample_tape 2 j 0, (2 * 2 * j)%nat)).
Proof.
  assert (Hn : (1 <= 2)%Z) by lia.
  split; [exact Hn|]. split.
  - apply (proj1 (blue_loop_rounds sample_tape 2 1 Hn)).
    vm_compute; reflexivity.
  - assert (Hrun : blue_loop sample_tape 2 5 [] 0 =
                   Some (Ret ([(0.5, 0.25); (0.7, 0.2)], 8%nat)))
      by reflexivity.
    destruct (proj2 (blue_loop_rounds sample_tape 2 5 Hn) _ Hrun)
      as (j & _ & Hr & _).
    exists j; rewrite Hrun, Hr; reflexivity.
Defined.

(** *** Which points are paired *)

Lemma firstn_prefix {A : Type} (n : nat) (l rest : list A) :
  (n <= length l)%nat -> firstn n (l ++ rest) = firstn n l.
Proof.
  intros Hn; rewrite firstn_app.
  replace (n - length l)%nat with 0%nat by lia.
  cbn [firstn]; apply app_nil_r.
Qed.

(** Once [k] rounds hold [num_samples] accepted points, the blue points
    used are the first [num_samples] accepted points of the stream, in
    the order drawn (what the last round accepted beyond that is
    dropped), and the red points are the [num_samples] rows read right
    after the last round of the loop. *)
Theorem blue_points_first_accepted (src : source) (n : Z) (k : nat) :
  (1 <= n)%Z ->
  let N := Z.to_nat n in
  (n <= Z.of_nat (length (accepted src N k 0)))%Z ->
  exists j,
    (1 <= j <= k)%nat /\
    forall fuel, (k <= fuel)%nat ->
      exists acc,
        blue_loop src n fuel [] 0 = Some (Ret (acc, (2 * N * j)%nat)) /\
        py_slice_to acc n = firstn N (accepted src N k 0) /\
        vectorized_simulation src fuel n =
        Some (success_fraction
                (Arr2 (draw_rows src N (2 * N * j)))
                (Arr2 (firstn N (accepted src N k 0)))).
Proof.
  intros Hn N Hacc.
  destruct (blue_loop_returns src n k [] 0%nat Hacc) as (acc & pos & Hrun).
  destruct (blue_loop_some src n k [] 0%nat _ (Hrun k (Nat.le_refl k)))
    as (j & Hj & Hr & Hlen & _).
  cbn [app Nat.add] in Hr, Hlen; fold N in Hr, Hlen.
  injection Hr as -> ->.
  assert (Hj1 : (1 <= j)%nat) by (destruct j; [cbn in Hlen|]; lia).
  exists j; split; [lia|]; intros fuel Hfuel.
  exists (accepted src N j 0); split; [now apply Hrun|].
  assert (Hcut : py_slice_to (accepted src N j 0) n =
                 firstn N (accepted src N k 0)).
  { rewrite py_slice_to_nonneg by lia; fold N.
    destruct (accepted_prefix src N j k 0 Hj) as [rest ->].
    symmetry; apply firstn_prefix; unfold N in *; lia. }
  split; [exact Hcut|].
  destruct (vectorized_simulation_spec src fuel n _ _ Hn (Hrun fuel Hfuel))
    as (_ & _ & Hsim).
  cbv zeta in Hsim; fold N in Hsim; now rewrite Hcut in Hsim.
Qed.

Lemma blue_points_first_accepted_witness :
  (1 <= 2)%Z /\
  (2 <= Z.of_nat (length (accepted sample_tape (Z.to_nat 2) 2 0)))%Z /\
  exists acc pos,
    blue_loop sample_tape 2 2 [] 0 = Some (Ret (acc, pos)) /\
    py_slice_to acc 2 = firstn 2 (accepted sample_tape 2 2 0).
Proof.
  assert (Hn : (1 <= 2)%Z) by lia.
  split; [exact Hn|]. split; [exact sample_tape_accepted|].
  destruct (blue_points_first_accepted sample_tape 2 2 Hn
              sample_tape_accepted) as (j & _ & Hall).
  destruct (Hall 2%nat (Nat.le_refl 2)) as (acc & Hrun & Hcut & _).
  exists acc, (2 * Z.to_nat 2 * j)%nat; split; [exact Hrun | exact Hcut].
Defined.

(** *** What the function can return *)

Lemma true_divide_range (s t : nat) :
  (s <= t)%nat ->
  (t = 0%nat /\ true_divide s t = NaN) \/
  ((0 < t)%nat /\ exists q, true_divide s t = Fin q /\ 0 <= q /\ q <= 1).
Proof.
  intros Hle; destruct t as [|t].
  - left; split; [reflexivity|].
    now replace s with 0%nat by lia.
  - right; split; [lia|]; eexists; split; [reflexivity|].
    split; unfold Qle; cbn [Qnum Qden]; [lia|].
    rewrite <- Pos.of_nat_succ, Zpos_P_of_succ_nat; lia.
Qed.

(** For [num_samples >= 1], once the loop has enough accepted points,
    the function raises nothing and returns either [nan], exactly when
    no pair is retained, or a rational number between 0 and 1; it never
    returns an infinity. *)
Theorem vectorized_simulation_range (src : source) (n : Z) (k : nat) :
  (1 <= n)%Z ->
  (n <= Z.of_nat (length (accepted src (Z.to_nat n) k 0)))%Z ->
  exists acc pos,
    (forall fuel, (k <= fuel)%nat ->
       blue_loop src n fuel [] 0 = Some (Ret (acc, pos))) /\
    let kept :=
      filter retained
        (combine (py_slice_to acc n) (draw_rows src (Z.to_nat n) pos)) in
    (Z.of_nat (length kept) <= n)%Z /\
    ((kept = [] /\
      forall fuel, (k <= fuel)%nat ->
        vectorized_simulation src fuel n = Some (Ret NaN)) \/
     (kept <> [] /\
      exists q, 0 <= q /\ q <= 1 /\
        forall fuel, (k <= fuel)%nat ->
          vectorized_simulation src fuel n = Some (Ret (Fin q)))).
Proof.
  intros Hn Hacc.
  destruct (vectorized_simulation_returns src n k Hn Hacc)
    as (acc & pos & Hrun & Hlen & Hsim).
  exists acc, pos; split; [exact Hrun|]; cbv zeta in *.
  set (pairs := combine (py_slice_to acc n)
                        (draw_rows src (Z.to_nat n) pos)) in *.
  set (kept := filter retained pairs) in *.
  split.
  { pose proof (filter_length_le retained pairs) as Hk; fold kept in Hk.
    unfold pairs in Hk; rewrite length_combine, <- Hlen, Nat.min_id in Hk.
    rewrite Hlen, draw_rows_length in Hk; lia. }
  destruct (true_divide_range (length (filter success kept)) (length kept)
              (filter_length_le success kept))
    as [[H0 Hnan] | [Hpos (q & Hq & Hq0 & Hq1)]].
  - left; split; [now apply length_zero_iff_nil|].
    intros fuel Hfuel; rewrite (Hsim fuel Hfuel); now rewrite Hnan.
  - right; split; [intros E; rewrite E in Hpos; cbn in Hpos; lia|].
    exists q; split; [exact Hq0|]; split; [exact Hq1|].
    intros fuel Hfuel; rewrite (Hsim fuel Hfuel); now rewrite Hq.
Qed.

Lemma vectorized_simulation_range_witness :
  (1 <= 2)%Z /\
  (2 <= Z.of_nat (length (accepted sample_tape (Z.to_nat 2) 2 0)))%Z /\
  (vectorized_simulation sample_tape 2 2 = Some (Ret NaN) \/
   exists q, 0 <= q /\ q <= 1 /\
     vectorized_simulation sample_tape 2 2 = Some (Ret (Fin q))).
Proof.
  assert (Hn : (1 <= 2)%Z) by lia.
  split; [exact Hn|]. split; [exact sample_tape_accepted|].
  destruct (vectorized_simulation_range sample_tape 2 2 Hn
              sample_tape_accepted)
    as (acc & pos & _ & _ & [[_ H] | [_ (q & H0 & H1 & H)]]).
  - left; apply H, Nat.le_refl.
  - right; exists q; repeat split; try assumption; apply H, Nat.le_refl.
Defined.

(** For [num_samples <= 0] the loop body is never entered and no number
    is ever returned, whatever the random source: with [num_samples = 0]
    the empty blue array is one-dimensional and indexing its column
    raises IndexError; with [num_samples < 0] drawing the red points
    raises ValueError. *)
Theorem nonpositive_samples_raise (src : source) (fuel : nat) (n : Z) :
  (n <= 0)%Z ->
  blue_loop src n fuel [] 0 = Some (Ret ([], 0%nat)) /\
  vectorized_simulation src fuel n =
  Some (Raise (if (n =? 0)%Z then IndexError else ValueError)).
Proof.
  intros Hn; split.
  - rewrite blue_loop_unfold; cbn [length Z.of_nat].
    now replace (0 <? n)%Z with false by (symmetry; apply Z.ltb_ge; lia).
  - destruct (n =? 0)%Z eqn:Hz.
    + apply Z.eqb_eq in Hz; subst n; apply zero_samples_raise.
    + apply Z.eqb_neq in Hz; apply negative_samples_raise; lia.
Qed.

Lemma nonpositive_samples_raise_witness :
  (-3 <= 0)%Z /\
  vectorized_simulation sample_tape 5 (-3) = Some (Raise ValueError).
Proof.
  assert (Hn : (-3 <= 0)%Z) by lia.
  split; [exact Hn|].
  exact (proj2 (nonpositive_samples_raise sample_tape 5 (-3) Hn)).
Defined.

(** *** The width of the excluded band *)

(** For a blue abscissa in [[0, 1]] the tolerance of the mask lies
    between [1e-8] and [1e-8 + 1e-5]: a pair closer than [1e-8] in
    abscissa is always excluded, a pair farther apart than
    [1e-8 + 1e-5] is always retained. *)
Theorem exclusion_band (x1 y1 x2 y2 : Q) :
  (Qabs (x2 - x1) <= 1e-8 -> retained ((x1, y1), (x2, y2)) = false) /\
  (0 <= x1 /\ x1 <= 1 ->
   1e-8 + 1e-5 < Qabs (x2 - x1) ->
   retained ((x1, y1), (x2, y2)) = true).
Proof.
  split.
  - intros Hclose; unfold retained; rewrite negb_false_iff.
    apply excluded_iff; cbn [fst snd].
    eapply Qle_trans; [exact Hclose|].
    rewrite <- (Qplus_0_r 1e-8) at 1.
    apply Qplus_le_r, Qmult_le_0_compat; [discriminate | apply Qabs_nonneg].
  - intros [H0 H1] Hfar; apply retained_iff; cbn [fst snd].
    eapply Qle_lt_trans; [|exact Hfar].
    apply Qplus_le_r; unfold rtol_default.
    rewrite <- (Qmult_1_r 1e-5) at 2.
    apply Qmult_le_l; [reflexivity|].
    rewrite Qabs_pos by exact H0; exact H1.
Qed.

Lemma exclusion_band_witness :
  (0 <= 0.5 /\ 0.5 <= 1) /\
  1e-8 + 1e-5 < Qabs (0.6 - 0.5) /\
  retained ((0.5, 0.25), (0.6, 0.5)) = true.
Proof.
  assert (Hx : 0 <= 0.5 /\ 0.5 <= 1) by (split; discriminate).
  assert (Hfar : 1e-8 + 1e-5 < Qabs (0.6 - 0.5)) by reflexivity.
  split; [exact Hx|]. split; [exact Hfar|].
  exact (proj2 (exclusion_band 0.5 0.25 0.6 0.5) Hx Hfar).
Defined.

(** *** Order and shards *)

Lemma filter_length_perm {A : Type} (f : A -> bool) (l l' : list A) :
  Permutation l l' -> Permutation (filter f l) (filter f l').
Proof.
  induction 1 as [|a l l' Hp IH|a b l|l l' l'' H1 IH1 H2 IH2]; cbn.
  - constructor.
  - destruct (f a); [now constructor | exact IH].
  - destruct (f a), (f b); try apply Permutation_refl; apply perm_swap.
  - eapply Permutation_trans; eassumption.
Qed.

Lemma combine_app {A B : Type} (l1 l2 : list A) (l1' l2' : list B) :
  length l1 = length l1' ->
  combine (l1 ++ l2) (l1' ++ l2') = combine l1 l1' ++ combine l2 l2'.
Proof.
  revert l1'; induction l1 as [|a l1 IH]; intros [|b l1'] Hlen;
    try discriminate; [reflexivity|].
  cbn; injection Hlen as Hlen; now rewrite IH.
Qed.

(** The success fraction does not depend on the order of the pairs:
    rearranging the blue and the red array by the same permutation
    leaves it unchanged. *)
Theorem success_fraction_permutation (red blue red' blue' : list point) :
  length blue = length red ->
  length blue' = length red' ->
  Permutation (combine blue red) (combine blue' red') ->
  success_fraction (Arr2 red) (Arr2 blue) =
  success_fraction (Arr2 red') (Arr2 blue').
Proof.
  intros Hlen Hlen' Hperm.
  rewrite !success_fraction_spec by assumption.
  pose proof (filter_length_perm retained _ _ Hperm) as Hk.
  pose proof (filter_length_perm success _ _ Hk) as Hs.
  now rewrite (Permutation_length Hk), (Permutation_length Hs).
Qed.

Lemma success_fraction_permutation_witness :
  success_fraction (Arr2 [(0.25, 0.5); (0.6, 0.5)])
                   (Arr2 [(0.5, 0.25); (0.7, 0.2)]) =
  success_fraction (Arr2 [(0.6, 0.5); (0.25, 0.5)])
                   (Arr2 [(0.7, 0.2); (0.5, 0.25)]).
Proof.
  apply success_fraction_permutation; [reflexivity | reflexivity |].
  apply perm_swap.
Defined.

(** Two shards of pairs evaluated together: the numbers of successes
    and of retained pairs add up, so the fraction of the whole is the
    ratio of the sums of the two shards' counts. *)
Theorem success_fraction_shards (red1 blue1 red2 blue2 : list point) :
  length blue1 = length red1 ->
  length blue2 = length red2 ->
  let kept1 := filter retained (combine blue1 red1) in
  let kept2 := filter retained (combine blue2 red2) in
  let s1 := length (filter success kept1) in
  let s2 := length (filter success kept2) in
  success_fraction (Arr2 red1) (Arr2 blue1) =
    Ret (true_divide s1 (length kept1)) /\
  success_fraction (Arr2 red2) (Arr2 blue2) =
    Ret (true_divide s2 (length kept2)) /\
  success_fraction (Arr2 (red1 ++ red2)) (Arr2 (blue1 ++ blue2)) =
    Ret (true_divide (s1 + s2) (length kept1 + length kept2)).
Proof.
  intros H1 H2; cbv zeta.
  split; [now apply success_fraction_spec|].
  split; [now apply success_fraction_spec|].
  rewrite success_fraction_spec by (rewrite !length_app; congruence).
  rewrite combine_app by exact H1.
  now rewrite !filter_app, !length_app.
Qed.

Lemma success_fraction_shards_witness :
  length [(0.5, 0.25)] = length [(0.25, 0.5)] /\
  length [(0.7, 0.2)] = length [(0.6, 0.5)] /\
  success_fraction (Arr2 ([(0.25, 0.5)] ++ [(0.6, 0.5)]))
                   (Arr2 ([(0.5, 0.25)] ++ [(0.7, 0.2)])) =
  Ret (Fin (1 # 2)).
Proof.
  assert (H1 : length [(0.5, 0.25)] = length [(0.25, 0.5)]) by reflexivity.
  assert (H2 : length [(0.7, 0.2)] = length [(0.6, 0.5)]) by reflexivity.
  split; [exact H1|]. split; [exact H2|].
  destruct (success_fraction_shards _ _ _ _ H1 H2) as (_ & _ & H).
  exact H.
Defined.

(** *** How much of the source is read *)

Lemma draw_rows_ext (src src' : source) (n pos : nat) :
  (forall i, (pos <= i < pos + 2 * n)%nat -> src i = src' i) ->
  draw_rows src n pos = draw_rows src' n pos.
Proof.
  intros Hext; unfold draw_rows; apply map_ext_in; intros i Hi.
  apply in_seq in Hi; f_equal; apply Hext; lia.
Qed.

Lemma blue_loop_ext (src src' : source) (n : Z) (fuel : nat) :
  forall blue pos acc pos',
    blue_loop src n fuel blue pos = Some (Ret (acc, pos')) ->
    (forall i, (pos <= i < pos')%nat -> src i = src' i) ->
    blue_loop src' n fuel blue pos = Some (Ret (acc, pos')).
Proof.
  induction fuel as [|fuel IH]; intros blue pos acc pos' Hrun Hext;
    rewrite blue_loop_unfold in *;
    destruct (Z.of_nat (length blue) <? n)%Z eqn:Hlt;
    try discriminate; try exact Hrun.
  assert (Hn : (0 <= n)%Z) by (apply Z.ltb_lt in Hlt; lia).
  rewrite loop_body_spec in * by exact Hn.
  destruct (blue_loop_some _ _ _ _ _ _ Hrun) as (j & _ & Hr & _).
  injection Hr as _ Hpos.
  rewrite <- (draw_rows_ext src src') by (intros i Hi; apply Hext; lia).
  apply IH; [exact Hrun | intros i Hi; apply Hext; lia].
Qed.

(** The function reads a finite prefix of the random source and nothing
    else: once [k] rounds hold [num_samples] accepted points, two
    sources that agree on their first [2 * num_samples * (k + 1)]
    numbers give the same result. *)
Theorem reads_finite_prefix (src src' : source) (n : Z) (k : nat) :
  (1 <= n)%Z ->
  let N := Z.to_nat n in
  (n <= Z.of_nat (length (accepted src N k 0)))%Z ->
  (forall i, (i < 2 * N * (k + 1))%nat -> src i = src' i) ->
  forall fuel, (k <= fuel)%nat ->
    vectorized_simulation src' fuel n = vectorized_simulation src fuel n.
Proof.
  intros Hn N Hacc Hext fuel Hfuel.
  destruct (blue_loop_returns src n k [] 0%nat Hacc) as (acc & pos & Hrun).
  destruct (blue_loop_some src n k [] 0%nat _ (Hrun k (Nat.le_refl k)))
    as (j & Hj & Hr & _).
  injection Hr as _ Hpos; cbn [Nat.add] in Hpos; fold N in Hpos.
  assert (Hbound : (pos + 2 * N <= 2 * N * (k + 1))%nat) by nia.
  pose proof (Hrun fuel Hfuel) as Hsrc.
  assert (Hsrc' : blue_loop src' n fuel [] 0 = Some (Ret (acc, pos))).
  { apply (blue_loop_ext src src'); [exact Hsrc|].
    intros i Hi; apply Hext; lia. }
  destruct (vectorized_simulation_spec src fuel n acc pos Hn Hsrc)
    as (_ & _ & ->).
  destruct (vectorized_simulation_spec src' fuel n acc pos Hn Hsrc')
    as (_ & _ & ->).
  fold N; rewrite (draw_rows_ext src src'); [reflexivity|].
  intros i Hi; apply Hext; lia.
Qed.

Lemma longer_tape_agrees (i : nat) :
  (i < 12)%nat -> sample_tape i = longer_tape i.
Proof.
  intros Hi; do 12 (destruct i as [|i]; [reflexivity|]); lia.
Qed.

Lemma reads_finite_prefix_witness :
  (1 <= 2)%Z /\
  (2 <= Z.of_nat (length (accepted sample_tape (Z.to_nat 2) 2 0)))%Z /\
  (forall i, (i < 12)%nat -> sample_tape i = longer_tape i) /\
  vectorized_simulation longer_tape 2 2 =
  vectorized_simulation sample_tape 2 2.
Proof.
  assert (Hn : (1 <= 2)%Z) by lia.
  split; [exact Hn|]. split; [exact sample_tape_accepted|].
  split; [exact longer_tape_agrees|].
  exact (reads_finite_prefix sample_tape longer_tape 2 2 Hn
           sample_tape_accepted longer_tape_agrees 2%nat (Nat.le_refl 2)).
Defined.

End SimulatorExtras.

(** ** Further facts about the geometry *)

Section GeometryExtras.
Import Geometry.
Local Open Scope R_scope.

(** *** The clip and the closed forms *)

Lemma quotient_ranges (x y : R) :
  (r1 x y <> 0 -> -1 <= x / r1 x y <= 1) /\
  (r2 x y <> 0 -> -1 <= (1 - x) / r2 x y <= 1).
Proof.
  split; intros Hr.
  - apply leg_over_hyp with y; [now apply r1_pos | apply r1_sq].
  - apply leg_over_hyp with y; [now apply r2_pos | apply r2_sq].
Qed.

(** In exact arithmetic the clip of [c_ad] and [c_bd] changes nothing:
    with the centres one unit apart the quotient handed to it is
    [x / r1] (resp. [(1 - x) / r2]), a cosine, and the angle returned is
    twice its inverse cosine. *)
Theorem clip_is_identity (x y : R) :
  (r1 x y <> 0 ->
   let q := (r1 x y ^ 2 + 1 - r2 x y ^ 2) / (2 * r1 x y) in
   q = x / r1 x y /\ -1 <= q <= 1 /\ np_clip q (-1) 1 = q /\
   c_ad x y = Some (2 * acos (x / r1 x y))) /\
  (r2 x y <> 0 ->
   let q := (r2 x y ^ 2 + 1 - r1 x y ^ 2) / (2 * r2 x y) in
   q = (1 - x) / r2 x y /\ -1 <= q <= 1 /\ np_clip q (-1) 1 = q /\
   c_bd x y = Some (2 * acos ((1 - x) / r2 x y))).
Proof.
  destruct (quotient_ranges x y) as [H1 H2].
  split; intros Hr; cbv zeta.
  - rewrite c_ad_quotient by exact Hr.
    split; [reflexivity|]. split; [now apply H1|].
    split; [apply np_clip_id; now apply H1 | now apply c_ad_closed].
  - rewrite c_bd_quotient by exact Hr.
    split; [reflexivity|]. split; [now apply H2|].
    split; [apply np_clip_id; now apply H2 | now apply c_bd_closed].
Qed.

Lemma clip_is_identity_witness :
  r1 (1 / 2) (1 / 4) <> 0 /\
  c_ad (1 / 2) (1 / 4) = Some (2 * acos (1 / 2 / r1 (1 / 2) (1 / 4))).
Proof.
  split; [exact r1_sample_nonzero|].
  destruct (proj1 (clip_is_identity (1 / 2) (1 / 4)) r1_sample_nonzero)
    as (_ & _ & _ & H); exact H.
Defined.

Lemma r1_opp (x y : R) : r1 x (- y) = r1 x y.
Proof. unfold r1; f_equal; ring. Qed.

Lemma r2_opp (x y : R) : r2 x (- y) = r2 x y.
Proof. unfold r2; f_equal; ring. Qed.

Lemma A_opp (x y : R) : A x (- y) = A x y.
Proof.
  unfold A, intersection_area, c_ad, c_bd.
  now rewrite !r1_opp, !r2_opp.
Qed.

Lemma intersection_area_closed_abs (x y : R) :
  r1 x y <> 0 -> r2 x y <> 0 ->
  intersection_area x y =
  Some (r1 x y ^ 2 * acos (x / r1 x y)
        + r2 x y ^ 2 * acos ((1 - x) / r2 x y) - Rabs y).
Proof.
  intros H1 H2.
  destruct (Rle_dec 0 y) as [Hy | Hy].
  - rewrite Rabs_right by lra; now apply intersection_area_closed.
  - rewrite Rabs_left by lra.
    assert (E : intersection_area x y = intersection_area x (- y)).
    { unfold intersection_area, c_ad, c_bd.
      now rewrite !r1_opp, !r2_opp. }
    rewrite E, <- (r1_opp x y), <- (r2_opp x y).
    apply intersection_area_closed; [lra | |]; now rewrite ?r1_opp, ?r2_opp.
Qed.

(** Away from the two corners the lens area and the valid area have a
    closed form in the two polar angles of the blue point, and both
    depend on [y] through [|y|] only. *)
Theorem valid_area_closed_form (x y : R) :
  r1 x y <> 0 -> r2 x y <> 0 ->
  let al := acos (x / r1 x y) in
  let be := acos ((1 - x) / r2 x y) in
  intersection_area x y =
    Some (r1 x y ^ 2 * al + r2 x y ^ 2 * be - Rabs y) /\
  A x y =
    Some (r1 x y ^ 2 * (PI / 4 - al) + r2 x y ^ 2 * (PI / 4 - be) + Rabs y) /\
  A x (- y) = A x y.
Proof.
  intros H1 H2; cbv zeta.
  pose proof (intersection_area_closed_abs x y H1 H2) as Hia.
  split; [exact Hia|]. split; [|apply A_opp].
  rewrite (A_unfold x y _ Hia); f_equal; field.
Qed.

Lemma valid_area_closed_form_witness :
  r1 (1 / 2) (1 / 4) <> 0 /\ r2 (1 / 2) (1 / 4) <> 0 /\
  A (1 / 2) (- (1 / 4)) = A (1 / 2) (1 / 4).
Proof.
  split; [exact r1_sample_nonzero|]. split; [exact r2_sample_nonzero|].
  destruct (valid_area_closed_form (1 / 2) (1 / 4)
              r1_sample_nonzero r2_sample_nonzero) as (_ & _ & H).
  exact H.
Defined.

(** *** On the canonical triangle *)

Lemma radius_ge_leg (a b h : R) :
  0 <= h -> h ^ 2 = a ^ 2 + b ^ 2 -> Rabs a <= h.
Proof.
  intros Hh Hsq; pose proof (pow2_ge_0 b).
  unfold Rabs; destruct (Rcase_abs a); nra.
Qed.

(** The centres are one unit apart, so the two circles always meet. *)
Lemma radii_sum_ge_1 (x y : R) : 1 <= r1 x y + r2 x y.
Proof.
  pose proof (radius_ge_leg x y _ (r1_nonneg x y) (r1_sq x y)) as H1.
  pose proof (radius_ge_leg (1 - x) y _ (r2_nonneg x y) (r2_sq x y)) as H2.
  unfold Rabs in H1, H2.
  destruct (Rcase_abs x), (Rcase_abs (1 - x)); lra.
Qed.

Lemma radii_le_1 (x y : R) :
  canonical x y -> r1 x y <= 1 /\ r2 x y <= 1.
Proof.
  intros Hc; pose proof (radii_sq_sum_le_1 x y Hc) as Hsum.
  pose proof (r1_nonneg x y); pose proof (r2_nonneg x y).
  pose proof (pow2_ge_0 (r1 x y)); pose proof (pow2_ge_0 (r2 x y)).
  split; nra.
Qed.

Lemma A_canonical_bounds (x y : R) :
  canonical x y -> exists v, A x y = Some v /\ y <= v <= PI / 4.
Proof.
  intros Hc.
  pose proof (radii_sq_sum_le_1 x y Hc) as Hsum.
  destruct Hc as ((Hy0 & Hy) & Hx & Hx').
  pose proof PI_RGT_0 as Hpi.
  pose proof (pow2_ge_0 (r1 x y)) as Hr1.
  pose proof (pow2_ge_0 (r2 x y)) as Hr2.
  destruct (intersection_area_nonneg x y) as (ia & Hia & Hpos).
  exists ((PI * r1 x y ^ 2) / 4 + (PI * r2 x y ^ 2) / 4 - ia).
  split; [now apply A_unfold|]. split; [|nra].
  assert (Hq : 0 <= (PI * r1 x y ^ 2) / 4 + (PI * r2 x y ^ 2) / 4) by nra.
  destruct (Req_dec_T (r1 x y) 0) as [H1 | H1].
  { assert (Hz : x ^ 2 + y ^ 2 = 0) by now apply r1_zero_iff.
    assert (y = 0) by (pose proof (pow2_ge_0 x); nra).
    rewrite intersection_area_zero_radius in Hia by now left.
    injection Hia as <-; lra. }
  destruct (Req_dec_T (r2 x y) 0) as [H2 | H2].
  { assert (Hz : (1 - x) ^ 2 + y ^ 2 = 0) by now apply r2_zero_iff.
    assert (y = 0) by (pose proof (pow2_ge_0 (1 - x)); nra).
    rewrite intersection_area_zero_radius in Hia by now right.
    injection Hia as <-; lra. }
  rewrite intersection_area_closed in Hia by assumption.
  injection Hia as <-.
  pose proof (acos_below_diagonal x y (r1 x y)
                (r1_pos x y H1) (conj Hy0 Hx) (r1_sq x y)) as Hal.
  pose proof (acos_below_diagonal (1 - x) y (r2 x y)
                (r2_pos x y H2) (conj Hy0 Hx') (r2_sq x y)) as Hbe.
  set (al := acos (x / r1 x y)) in *.
  set (be := acos ((1 - x) / r2 x y)) in *.
  assert (0 <= r1 x y ^ 2 * (PI / 4 - al)) by (apply Rmult_le_pos; lra).
  assert (0 <= r2 x y ^ 2 * (PI / 4 - be)) by (apply Rmult_le_pos; lra).
  lra.
Qed.

(** On the canonical triangle both radii are at most 1, so each quarter
    disk of area [pi r^2 / 4] lies inside the unit square; the two
    circles meet ([r1 + r2 >= 1], on every input); and the valid area
    lies between [y] and [pi / 4]. *)
Theorem canonical_radii_and_area (x y : R) :
  1 <= r1 x y + r2 x y /\
  (canonical x y ->
   r1 x y <= 1 /\ r2 x y <= 1 /\ r1 x y ^ 2 + r2 x y ^ 2 <= 1 /\
   exists v, A x y = Some v /\ y <= v <= PI / 4).
Proof.
  split; [apply radii_sum_ge_1|]; intros Hc.
  destruct (radii_le_1 x y Hc) as [H1 H2].
  repeat split; try assumption;
    [now apply radii_sq_sum_le_1 | now apply A_canonical_bounds].
Qed.

Lemma canonical_radii_and_area_witness :
  canonical (1 / 2) (1 / 4) /\
  exists v, A (1 / 2) (1 / 4) = Some v /\ 1 / 4 <= v <= PI / 4.
Proof.
  split; [exact canonical_sample|].
  destruct (proj2 (canonical_radii_and_area (1 / 2) (1 / 4))
              canonical_sample) as (_ & _ & _ & H).
  exact H.
Defined.

(** *** On the bottom edge *)

Lemma r1_bottom (x : R) : 0 <= x -> r1 x 0 = x.
Proof.
  intros Hx; unfold r1.
  replace (x ^ 2 + 0 ^ 2) with (x ^ 2) by ring; now apply sqrt_pow2.
Qed.

Lemma r2_bottom (x : R) : x <= 1 -> r2 x 0 = 1 - x.
Proof.
  intros Hx; unfold r2.
  replace ((1 - x) ^ 2 + 0 ^ 2) with ((1 - x) ^ 2) by ring.
  apply sqrt_pow2; lra.
Qed.

(** For a blue point on the bottom edge the two circles touch
    ([r1 + r2 = 1]): the lens is empty and the valid area is the sum of
    the two quarter disks. *)
Theorem bottom_edge_area (x : R) :
  0 <= x <= 1 ->
  r1 x 0 + r2 x 0 = 1 /\
  c_ad x 0 = Some 0 /\ c_bd x 0 = Some 0 /\
  intersection_area x 0 = Some 0 /\
  A x 0 = Some (PI / 4 * (x ^ 2 + (1 - x) ^ 2)).
Proof.
  intros [Hx0 Hx1].
  pose proof (r1_bottom x Hx0) as E1; pose proof (r2_bottom x Hx1) as E2.
  assert (Had : c_ad x 0 = Some 0).
  { destruct (Req_dec_T (r1 x 0) 0) as [H | H];
      [now apply c_ad_zero_radius|].
    rewrite c_ad_closed by exact H; rewrite E1 in *.
    replace (x / x) with 1 by (field; exact H).
    rewrite acos_1; f_equal; ring. }
  assert (Hbd : c_bd x 0 = Some 0).
  { destruct (Req_dec_T (r2 x 0) 0) as [H | H];
      [now apply c_bd_zero_radius|].
    rewrite c_bd_closed by exact H; rewrite E2 in *.
    replace ((1 - x) / (1 - x)) with 1 by (field; exact H).
    rewrite acos_1; f_equal; ring. }
  assert (Hia : intersection_area x 0 = Some 0).
  { destruct (Req_dec_T (r1 x 0) 0) as [H1 | H1];
      [apply intersection_area_zero_radius; now left|].
    destruct (Req_dec_T (r2 x 0) 0) as [H2 | H2];
      [apply intersection_area_zero_radius; now right|].
    rewrite (intersection_area_value x 0 H1 H2 0 0 Had Hbd).
    f_equal; rewrite sin_0; ring. }
  split; [lra|]. split; [exact Had|]. split; [exact Hbd|].
  split; [exact Hia|].
  rewrite (A_unfold x 0 0 Hia), E1, E2; f_equal; field.
Qed.

Lemma bottom_edge_area_witness :
  0 <= 1 / 2 <= 1 /\ intersection_area (1 / 2) 0 = Some 0.
Proof.
  assert (H : 0 <= 1 / 2 <= 1) by lra.
  split; [exact H|].
  destruct (bottom_edge_area (1 / 2) H) as (_ & _ & _ & Hia & _).
  exact Hia.
Defined.

(** *** Above the square *)

Lemma acos_ge (t th : R) :
  -1 <= t <= 1 -> 0 <= th <= PI -> t <= cos th -> th <= acos t.
Proof.
  intros Ht Hth Hcos.
  pose proof (acos_bound t) as Hb.
  destruct (Rle_dec th (acos t)) as [Hle | Hgt]; [exact Hle | exfalso].
  assert (Hlt : cos th < cos (acos t)) by (apply cos_decreasing_1; lra).
  rewrite cos_acos in Hlt by exact Ht; lra.
Qed.

Lemma acos_far_point (a b h : R) :
  0 < h -> h ^ 2 = a ^ 2 + b ^ 2 -> 2 * a <= h -> PI / 3 <= acos (a / h).
Proof.
  intros Hh Hsq Hfar; pose proof PI_RGT_0.
  apply acos_ge; [now apply leg_over_hyp with b | lra |].
  rewrite cos_PI3.
  apply Rmult_le_reg_r with h; [exact Hh|].
  unfold Rdiv; rewrite Rmult_assoc, Rinv_l by lra; lra.
Qed.

(** The valid area is an area on the canonical triangle only: for a
    point above the square, [0 <= x <= 1] and [y >= 2], the formula
    gives a negative number. *)
Theorem valid_area_negative_above (x y : R) :
  0 <= x <= 1 -> 2 <= y -> exists v, A x y = Some v /\ v < 0.
Proof.
  intros [Hx0 Hx1] Hy.
  pose proof (r1_sq x y) as S1; pose proof (r2_sq x y) as S2.
  pose proof (r1_nonneg x y) as P1; pose proof (r2_nonneg x y) as P2.
  assert (G1 : 2 <= r1 x y) by (pose proof (pow2_ge_0 x); nra).
  assert (G2 : 2 <= r2 x y) by (pose proof (pow2_ge_0 (1 - x)); nra).
  assert (H1 : r1 x y <> 0) by lra.
  assert (H2 : r2 x y <> 0) by lra.
  pose proof (intersection_area_closed x y ltac:(lra) H1 H2) as Hia.
  eexists; split; [exact (A_unfold x y _ Hia)|].
  pose proof (acos_far_point x y (r1 x y) ltac:(lra) S1 ltac:(lra)) as Hal.
  pose proof (acos_far_point (1 - x) y (r2 x y) ltac:(lra) S2 ltac:(lra))
    as Hbe.
  set (al := acos (x / r1 x y)) in *.
  set (be := acos ((1 - x) / r2 x y)) in *.
  pose proof PI2_3_2 as Hpi.
  assert (Q1 : r1 x y ^ 2 * (PI / 3) <= r1 x y ^ 2 * al)
    by (apply Rmult_le_compat_l; [apply pow2_ge_0 | exact Hal]).
  assert (Q2 : r2 x y ^ 2 * (PI / 3) <= r2 x y ^ 2 * be)
    by (apply Rmult_le_compat_l; [apply pow2_ge_0 | exact Hbe]).
  assert (E : r1 x y ^ 2 + r2 x y ^ 2 = x ^ 2 + (1 - x) ^ 2 + 2 * y ^ 2)
    by (rewrite S1, S2; ring).
  assert (Hyy : 2 * y <= y ^ 2) by nra.
  assert (Hxx : 0 < x ^ 2 + (1 - x) ^ 2) by nra.
  clear S1 S2 G1 G2 Hia.
  set (R1 := r1 x y ^ 2) in *; set (R2 := r2 x y ^ 2) in *.
  assert (Q3 : 3 * (R1 + R2) <= PI * R1 + PI * R2) by nra.
  lra.
Qed.

Lemma valid_area_negative_above_witness :
  0 <= 1 / 2 <= 1 /\ 2 <= 3 /\ exists v, A (1 / 2) 3 = Some v /\ v < 0.
Proof.
  assert (Hx : 0 <= 1 / 2 <= 1) by lra.
  assert (Hy : 2 <= 3) by lra.
  split; [exact Hx|]. split; [exact Hy|].
  exact (valid_area_negative_above (1 / 2) 3 Hx Hy).
Defined.

Lemma A_mirror (x y : R) : A (1 - x) y = A x y.
Proof.
  unfold A; rewrite intersection_area_reflect, r2_reflect.
  change (r1 (1 - x) y) with (r2 x y).
  destruct (intersection_area x y); cbn [bind]; [f_equal; ring | reflexivity].
Qed.

End GeometryExtras.

(** ** The integration domains *)

Section IntegrationFacts.
Import Geometry Integration.
Local Open Scope R_scope.

Lemma domain_I1 (x y : R) :
  domain I1_call x y <-> 0 <= x <= 0.5 /\ 0 <= y <= x.
Proof. reflexivity. Qed.

Lemma domain_I2 (x y : R) :
  domain I2_call x y <-> 0.5 <= x <= 1 /\ 0 <= y <= 1 - x.
Proof. reflexivity. Qed.

Lemma domains_cover_canonical (x y : R) :
  domain I1_call x y \/ domain I2_call x y <-> canonical x y.
Proof.
  rewrite domain_I1, domain_I2; unfold canonical; split.
  - intros [H | H]; lra.
  - intros H; destruct (Rle_dec x 0.5); [left | right]; lra.
Qed.

(** The two [dblquad] calls integrate [A] over two triangles that
    together make up exactly the canonical triangle and share only the
    segment [x = 0.5]; the second is the mirror image of the first and
    the integrand takes the same values at mirrored points; on both the
    integrand is a number between 0 and [pi / 4]. *)
Theorem integration_domains_tile_triangle (x y : R) :
  (domain I1_call x y \/ domain I2_call x y <-> canonical x y) /\
  (domain I1_call x y -> domain I2_call x y -> x = 0.5) /\
  (domain I2_call x y <-> domain I1_call (1 - x) y) /\
  func I2_call y x = func I1_call y (1 - x) /\
  (domain I1_call x y \/ domain I2_call x y ->
   exists v, func I1_call y x = Some v /\ func I2_call y x = Some v /\
             0 <= v <= PI / 4).
Proof.
  split; [apply domains_cover_canonical|].
  split; [rewrite domain_I1, domain_I2; lra|].
  split; [rewrite domain_I1, domain_I2; lra|].
  split; [cbn [func I1_call I2_call]; symmetry; apply A_mirror|].
  intros Hdom; apply domains_cover_canonical in Hdom.
  destruct (A_canonical_bounds x y Hdom) as (v & Hv & Hlo & Hhi).
  exists v; cbn [func I1_call I2_call]; repeat split; try assumption.
  destruct Hdom as ((Hy0 & _) & _); lra.
Qed.

Lemma integration_domains_tile_triangle_witness :
  domain I1_call (1 / 4) (1 / 8) /\
  exists v, func I1_call (1 / 8) (1 / 4) = Some v /\ 0 <= v <= PI / 4.
Proof.
  assert (Hd : domain I1_call (1 / 4) (1 / 8))
    by (apply domain_I1; lra).
  split; [exact Hd|].
  destruct (integration_domains_tile_triangle (1 / 4) (1 / 8))
    as (_ & _ & _ & _ & H).
  destruct (H (or_introl Hd)) as (v & Hv & _ & Hr).
  exists v; split; [exact Hv | exact Hr].
Defined.

End IntegrationFacts.

(** ** The two paths side by side *)

Section TwoPaths.
Local Open Scope R_scope.

Lemma Q2R_one : Q2R 1 = 1.
Proof. unfold Q2R; cbn; lra. Qed.

Lemma Q2R_zero : Q2R 0 = 0.
Proof. unfold Q2R; cbn; lra. Qed.

Lemma Q2R_le_iff (p q : Q) : (p <= q)%Q <-> Q2R p <= Q2R q.
Proof. split; [apply Qle_Rle | apply Rle_Qle]. Qed.

Lemma in_triangle_canonical (p : Simulator.point) :
  Simulator.in_triangle p <->
  Geometry.canonical (Q2R (fst p)) (Q2R (snd p)).
Proof.
  unfold Simulator.in_triangle, Geometry.canonical.
  pose proof (Q2R_le_iff 0 (snd p)) as H0.
  pose proof (Q2R_le_iff (snd p) 0.5) as H1.
  pose proof (Q2R_le_iff (snd p) (fst p)) as H2.
  pose proof (Q2R_le_iff (snd p) (1 - fst p)) as H3.
  rewrite Q2R_zero in H0.
  rewrite Q2R_minus, Q2R_one in H3.
  tauto.
Qed.

(** The membership test of the rejection loop, with the lower bound
    [0 <= y] that the random source supplies, accepts exactly the
    points over which the two [dblquad] calls integrate: the simulator
    and the exact path work on the same region. *)
Theorem sampler_region_is_integration_region (p : Simulator.point) :
  (Simulator.valid p = true /\ (0 <= snd p)%Q) <->
  (Integration.domain Integration.I1_call (Q2R (fst p)) (Q2R (snd p)) \/
   Integration.domain Integration.I2_call (Q2R (fst p)) (Q2R (snd p))).
Proof.
  rewrite domains_cover_canonical, <- in_triangle_canonical, valid_true.
  unfold Simulator.in_triangle; tauto.
Qed.

Lemma Q2R_sq (q : Q) : Q2R (q ^ 2) = Q2R q ^ 2.
Proof.
  rewrite (Qeq_eqR (q ^ 2) (q * q)) by ring.
  rewrite Q2R_mult; ring.
Qed.

Lemma Q2R_sqdist_left (p : Simulator.point) :
  Q2R (Simulator.sqdist_left p) =
  Geometry.r1 (Q2R (fst p)) (Q2R (snd p)) ^ 2.
Proof.
  unfold Simulator.sqdist_left.
  now rewrite r1_sq, Q2R_plus, !Q2R_sq.
Qed.

Lemma Q2R_sqdist_right (p : Simulator.point) :
  Q2R (Simulator.sqdist_right p) =
  Geometry.r2 (Q2R (fst p)) (Q2R (snd p)) ^ 2.
Proof.
  unfold Simulator.sqdist_right.
  now rewrite r2_sq, Q2R_plus, !Q2R_sq, Q2R_minus, Q2R_one.
Qed.

Lemma square_differences_sign (a b c d : R) :
  0 <= a -> 0 <= b -> 0 <= c -> 0 <= d ->
  ((a ^ 2 - b ^ 2) * (c ^ 2 - d ^ 2) <= 0 <-> (a - b) * (c - d) <= 0).
Proof.
  intros Ha Hb Hc Hd.
  replace ((a ^ 2 - b ^ 2) * (c ^ 2 - d ^ 2))
    with ((a - b) * (c - d) * ((a + b) * (c + d))) by ring.
  assert (Hs : 0 <= (a + b) * (c + d)) by (apply Rmult_le_pos; lra).
  split; intros H.
  - destruct Hs as [Hs | Hs].
    + destruct (Rle_dec ((a - b) * (c - d)) 0) as [Hle | Hgt];
        [exact Hle | exfalso].
      assert (0 < (a - b) * (c - d) * ((a + b) * (c + d)))
        by (apply Rmult_lt_0_compat; lra).
      lra.
    + symmetry in Hs; apply Rmult_integral in Hs as [Hs | Hs].
      * replace a with 0 by lra; replace b with 0 by lra; lra.
      * replace c with 0 by lra; replace d with 0 by lra; lra.
  - set (m := (a - b) * (c - d)) in *.
    set (t := (a + b) * (c + d)) in *.
    assert (0 <= - m * t) by (apply Rmult_le_pos; lra).
    lra.
Qed.

(** The success test of the simulator and the circles of the exact
    path: for a pair with distinct abscissas (every retained pair is
    one), [0 <= a <= 1] holds exactly when the red point, compared with
    the blue point, is no farther from one bottom corner and no nearer
    to the other, the distances being the radii [r1] and [r2] of the
    exact path. *)
Theorem success_iff_radii (x1 y1 x2 y2 : Q) :
  ~ (x1 == x2)%Q ->
  (Simulator.success ((x1, y1), (x2, y2)) = true <->
   (Geometry.r1 (Q2R x2) (Q2R y2) - Geometry.r1 (Q2R x1) (Q2R y1))
   * (Geometry.r2 (Q2R x2) (Q2R y2) - Geometry.r2 (Q2R x1) (Q2R y1)) <= 0).
Proof.
  intros Hne; rewrite (success_between_corners _ _ _ _ Hne).
  rewrite Q2R_le_iff, Q2R_zero, Q2R_mult, !Q2R_minus.
  rewrite !Q2R_sqdist_left, !Q2R_sqdist_right; cbn [fst snd].
  apply square_differences_sign;
    first [apply r1_nonneg | apply r2_nonneg].
Qed.

Lemma success_iff_radii_witness :
  ~ (0.5 == 0.25)%Q /\
  (Geometry.r1 (Q2R 0.25) (Q2R 0.5) - Geometry.r1 (Q2R 0.5) (Q2R 0.25))
  * (Geometry.r2 (Q2R 0.25) (Q2R 0.5) - Geometry.r2 (Q2R 0.5) (Q2R 0.25))
  <= 0.
Proof.
  assert (Hne : ~ (0.5 == 0.25)%Q) by discriminate.
  split; [exact Hne|].
  apply (proj1 (success_iff_radii 0.5 0.25 0.25 0.5 Hne)).
  reflexivity.
Defined.

End TwoPaths.

(** ** The clamp and the inverse cosine *)

Section ClampFacts.
Import Floats.PrimFloat Floats.FloatAxioms.
#[local] Set Warnings "-inexact-float".







End ClampFacts.
